(** * Labyrinth: the board, the shift move and the connectivity graph

    A shallow embedding of [labyrinth.py]: the [Direction] flag with its
    rotation, the [Tile] dataclass, the 7x7 board of [Game] (rows 0, 2, 4, 6
    are Python lists, rows 1, 3, 5 are deques), [Game.shift] with
    [rotate_column], and [get_adjacent] / [traverse] / [compute_graph];
    then [chunks] and the deal of the quests to the players in
    [Game.__init__], the turns of [Game.play], and the labels of
    [Game.print_sectors].

    Python integers are [Z]; a sequence index follows Python's rules
    (a negative index counts from the end, anything else out of range raises
    [IndexError]).  Exceptions are values of [exn]; a method that mutates
    [self] returns the state it leaves behind together with its outcome. *)

From stdpp Require Import base tactics option list gmap sets fin_sets.
From stdpp Require Import strings pretty.
From Stdlib Require Import ZArith Lia.

#[local] Set Warnings "-clear-no-such-hyp".
Local Open Scope Z_scope.

(** ** Exceptions and results *)

Inductive exn : Set :=
| ValueError
| IndexError
| AttributeError
| RecursionError.

Inductive result (A : Type) : Type :=
| Ok (a : A)
| Raise (e : exn).
Arguments Ok {A} a.
Arguments Raise {A} e.

Definition bind {A B} (m : result A) (k : A → result B) : result B :=
  match m with
  | Ok a => k a
  | Raise e => Raise e
  end.

Notation "'let!' x ':=' m 'in' k" := (bind m (λ x, k))
  (at level 10, x pattern, m at level 100, k at level 200).

(** A left fold whose body may raise: the [for] loops of the source. *)
Fixpoint foldM {A B} (f : B → A → result B) (b : B) (l : list A) : result B :=
  match l with
  | [] => Ok b
  | a :: l => let! b' := f b a in foldM f b' l
  end.

(** ** Direction: a 4-bit flag *)

Module Direction.

Definition NORTH : Z := 1.
Definition EAST : Z := 2.
Definition SOUTH : Z := 4.
Definition WEST : Z := 8.
Definition NE : Z := Z.lor NORTH EAST.
Definition NW : Z := Z.lor NORTH WEST.
Definition SE : Z := Z.lor SOUTH EAST.
Definition SW : Z := Z.lor SOUTH WEST.
Definition NS : Z := Z.lor NORTH SOUTH.
Definition EW : Z := Z.lor EAST WEST.
Definition NSE : Z := Z.lor (Z.lor NORTH SOUTH) EAST.
Definition NSW : Z := Z.lor (Z.lor NORTH SOUTH) WEST.
Definition NEW : Z := Z.lor (Z.lor NORTH EAST) WEST.
Definition SEW : Z := Z.lor (Z.lor SOUTH EAST) WEST.
Definition NSEW : Z := Z.lor (Z.lor (Z.lor NORTH SOUTH) EAST) WEST.

(** The values [Direction(v)] accepts: the 16 subsets of the four flags. *)
Definition valid (d : Z) : bool := (0 <=? d) && (d <? 16).

(** [Direction.__lshift__] *)
Definition __lshift__ (self amount : Z) : Z :=
  let amount := amount mod 4 in
  let rotated := Z.shiftl self amount in
  Z.lor (Z.land rotated 0xF) (Z.shiftr (Z.land rotated 0xF0) 4).

(** [Direction.__rshift__] *)
Definition __rshift__ (self amount : Z) : Z := __lshift__ self (- amount).

(** [a & b] used as a condition: a flag is true when its value is not 0. *)
Definition meets (a b : Z) : bool := negb (Z.land a b =? 0).

End Direction.

(** ** Quest, Color, Tile *)

Inductive Quest : Set :=
| BAT | BOOK | CANDELABRA | DRAGON | EMERALD | GHOST | HELMET | SPIDER
| GENIE | KEYS | LIZARD | MAP | CROWN | OWL | POUCH | GOBLIN | RING | SCARAB
| CHEST | SKULL | WITCH | SWORD | MOUSE | MOTH.

Inductive Color : Set := RED | YELLOW | BLUE | GREEN.

Inductive Item : Set :=
| IQuest (q : Quest)
| IColor (c : Color).

(** A tile is a value here.  [Game.__init__] builds every [Tile] object
    once and stores it in one place, a cell of the board or [self.free], and
    [shift] only moves these references: no tile object is reached from two
    places, so the update of [self.free.path] in place is seen through
    [self.free] alone. *)
Record Tile : Set := mkTile { path : Z; item : option Item }.

(** [tile.path <<= amount]: the path is replaced, the item stays. *)
Definition rotate_path (t : Tile) (amount : Z) : Tile :=
  mkTile (Direction.__lshift__ (path t) amount) (item t).

(** ** Python sequences *)

(** [l[i]]: a negative index counts from the end. *)
Definition py_index {A} (l : list A) (i : Z) : result A :=
  let n := Z.of_nat (length l) in
  let k := if i <? 0 then i + n else i in
  if (0 <=? k) && (k <? n) then
    match l !! Z.to_nat k with
    | Some a => Ok a
    | None => Raise IndexError
    end
  else Raise IndexError.

(** [l[i] = v] *)
Definition py_setitem {A} (l : list A) (i : Z) (v : A) : result (list A) :=
  let n := Z.of_nat (length l) in
  let k := if i <? 0 then i + n else i in
  if (0 <=? k) && (k <? n) then Ok (<[Z.to_nat k := v]> l)
  else Raise IndexError.

(** [l.pop()]: removes and returns the last item. *)
Definition py_pop {A} (l : list A) : result (A * list A) :=
  match last l with
  | Some a => Ok (a, removelast l)
  | None => Raise IndexError
  end.

(** [deque.rotate(n)]: [n] steps to the right, to the left when [n] is
    negative; the item at position [i] goes to [(i + n) mod len]. *)
Definition deque_rotate {A} (l : list A) (n : Z) : list A :=
  let len := Z.of_nat (length l) in
  if len =? 0 then l
  else
    let k := Z.to_nat (n mod len) in
    drop (length l - k)%nat l ++ take (length l - k)%nat l.

(** [range(n)] *)
Definition range (n : nat) : list Z := Z.of_nat <$> seq 0 n.

(** ** The board *)

(** A cell holds a tile, or [None] before [Game.__init__] has filled it. *)
Abbreviation Cell := (option Tile).

(** A row of the board is a [list] (rows 0, 2, 4, 6) or a [deque]
    (rows 1, 3, 5); only a deque has [rotate]. *)
Inductive Row : Set :=
| PyList (cells : list Cell)
| PyDeque (cells : list Cell).

Definition row_cells (r : Row) : list Cell :=
  match r with PyList c | PyDeque c => c end.

Definition row_getitem (r : Row) (i : Z) : result Cell :=
  py_index (row_cells r) i.

Definition row_setitem (r : Row) (i : Z) (v : Cell) : result Row :=
  match r with
  | PyList c => let! c' := py_setitem c i v in Ok (PyList c')
  | PyDeque c => let! c' := py_setitem c i v in Ok (PyDeque c')
  end.

(** [row.rotate(sign)] *)
Definition row_rotate (r : Row) (sign : Z) : result Row :=
  match r with
  | PyList _ => Raise AttributeError
  | PyDeque c => Ok (PyDeque (deque_rotate c sign))
  end.

Abbreviation Board := (list Row).

(** [board[i][j]] read as a tile: [None] has no [path]. *)
Definition tile_at (board : Board) (i j : Z) : result Tile :=
  let! row := py_index board i in
  let! cell := row_getitem row j in
  match cell with
  | Some t => Ok t
  | None => Raise AttributeError
  end.

(** [board[i][j] = v] *)
Definition board_setitem (board : Board) (i j : Z) (v : Cell) : result Board :=
  let! row := py_index board i in
  let! row' := row_setitem row j v in
  py_setitem board i row'.

(** A [for] loop that builds a list, each turn of which may raise. *)
Fixpoint mapM {A B} (f : A → result B) (l : list A) : result (list B) :=
  match l with
  | [] => Ok []
  | a :: l => let! b := f a in let! bs := mapM f l in Ok (b :: bs)
  end.

(** [rotate_column]: the column is gathered into a deque, rotated, and
    written back row by row.  The rows are changed in place; a row that
    gave its item also takes one ([rotate_column_writes_back]), so no
    exception leaves the rows half written. *)
Definition rotate_column (grid : Board) (index sign : Z) : result Board :=
  let! col := mapM (λ row, row_getitem row index) grid in
  let col := deque_rotate col sign in
  mapM (λ '(row, v), row_setitem row index v) (zip grid col).

(** ** The connectivity graph *)

Abbreviation Pos := (Z * Z)%type.

Definition NAVIGATION : list (Z * Z * Z) :=
  [ (Direction.NORTH, -1, 0);
    (Direction.EAST, 0, 1);
    (Direction.SOUTH, 1, 0);
    (Direction.WEST, 0, -1) ].

Definition in_bounds (p : Pos) : bool :=
  (0 <=? p.1) && (p.1 <? 7) && (0 <=? p.2) && (p.2 <? 7).

(** One turn of the loop of [get_adjacent]; [acc] collects what has been
    yielded so far. *)
Definition adjacent_step (board : Board) (tile : Tile) (i j : Z)
    (acc : list Pos) (nav : Z * Z * Z) : result (list Pos) :=
  let '(dir_, di, dj) := nav in
  let ai := i + di in
  let aj := j + dj in
  if Direction.meets (path tile) dir_ && in_bounds (ai, aj) then
    let! other := tile_at board ai aj in
    if Direction.meets (path other) (Direction.__lshift__ dir_ 2)
    then Ok (acc ++ [(ai, aj)])
    else Ok acc
  else Ok acc.

(** [get_adjacent] is a generator; the board does not change while it is
    consumed, so it is modelled by the list of what it yields, in order. *)
Definition get_adjacent (board : Board) (i j : Z) : result (list Pos) :=
  let! tile := tile_at board i j in
  foldM (adjacent_step board tile i j) [] NAVIGATION.

(** [traverse]: the recursion is bounded by [fuel]; running out of it is
    reported as [RecursionError]. *)
Fixpoint traverse (fuel : nat) (board : Board) (i j : Z) (explored : gset Pos)
    : result (gset Pos) :=
  match fuel with
  | O => Raise RecursionError
  | S fuel =>
    let explored := {[ (i, j) ]} ∪ explored in
    let! adjs := get_adjacent board i j in
    foldM (λ explored adj,
             if decide (adj ∈ explored) then Ok explored
             else traverse fuel board adj.1 adj.2 explored)
          explored adjs
  end.

(** The pairs [(i, j)] of the two nested [range(7)] loops, in order. *)
Definition cells : list Pos :=
  i ← range 7; j ← range 7; [(i, j)].

(** The depth the recursion of [traverse] can reach: one call for each of
    the 49 cells ([traverse_explores] shows it is enough). *)
Definition traverse_fuel : nat := 49.

(** [compute_graph] *)

Definition compute_graph (board : Board) : result (gmap Pos (gset Pos)) :=
  foldM (λ graph '(i, j),
           match graph !! (i, j) with
           | Some _ => Ok graph
           | None =>
             let! explored := traverse traverse_fuel board i j ∅ in
             Ok (set_fold (λ node g, <[node := explored]> g) graph explored)
           end)
        ∅ cells.

(** ** Game *)

(** The part of a [Game] object that [shift] reads and writes. *)
Record Game : Type := mkGame {
  board : Board;
  free : Cell;
  graph : gmap Pos (gset Pos);
}.

(** A method body: it runs on [self] and leaves a state and an outcome. *)
Definition method (A : Type) : Type := Game → Game * result A.

Definition mret {A} (a : A) : method A := λ self, (self, Ok a).
Definition mraise {A} (e : exn) : method A := λ self, (self, Raise e).
Definition mbind {A B} (m : method A) (k : A → method B) : method B :=
  λ self,
    match m self with
    | (self', Ok a) => k a self'
    | (self', Raise e) => (self', Raise e)
    end.
Definition lift {A} (r : result A) : method A := λ self, (self, r).
Definition get {A} (field : Game → A) : method A := λ self, (self, Ok (field self)).
Definition set_board (b : Board) : method unit :=
  λ self, (mkGame b (free self) (graph self), Ok tt).
Definition set_free (c : Cell) : method unit :=
  λ self, (mkGame (board self) c (graph self), Ok tt).
Definition set_graph (g : gmap Pos (gset Pos)) : method unit :=
  λ self, (mkGame (board self) (free self) g, Ok tt).

Notation "'do' x '<-' m ';' k" := (mbind m (λ x, k))
  (at level 10, x pattern, m at level 100, k at level 200).

(** [self.free.path <<= rotation] *)
Definition rotate_free (rotation : Z) : method unit :=
  do c <- get free;
  match c with
  | Some t => set_free (Some (rotate_path t rotation))
  | None => mraise AttributeError
  end.

(** [Game.shift] *)
Definition shift (direction index rotation : Z) : method unit :=
  if index mod 2 =? 0 then mraise ValueError
  else
    do _ <- rotate_free rotation;
    let '(eject_index, sign) :=
      if Direction.meets direction Direction.NW then (0, 1) else (6, -1) in
    do _ <- (if Direction.meets direction Direction.EW then
          do b <- get board;
          do row <- lift (py_index b index);
          do row <- lift (row_rotate row sign);
          do b <- lift (py_setitem b index row);
          do _ <- set_board b;
          (* self.free, row[eject_index] = row[eject_index], self.free *)
          do ejected <- lift (row_getitem row eject_index);
          do old_free <- get free;
          do _ <- set_free ejected;
          do row <- lift (row_setitem row eject_index old_free);
          do b <- lift (py_setitem b index row);
          set_board b
        else
          do b <- get board;
          do b <- lift (rotate_column b index sign);
          do _ <- set_board b;
          (* self.free, self.board[eject_index][index] = ..., self.free *)
          do ejected <- lift (let! row := py_index b eject_index in
                              row_getitem row index);
          do old_free <- get free;
          do _ <- set_free ejected;
          do b <- lift (board_setitem b eject_index index old_free);
          set_board b);
    do b <- get board;
    do g <- lift (compute_graph b);
    set_graph g.

(** A sequence of [shift] calls; the first exception ends it. *)
Fixpoint shifts (moves : list (Z * Z * Z)) : method unit :=
  match moves with
  | [] => mret tt
  | (direction, index, rotation) :: moves =>
    do _ <- shift direction index rotation; shifts moves
  end.

(** ** Game.__init__ *)

Definition fixed (p : Z) (i : Item) : Cell := Some (mkTile p (Some i)).

(** The literal [self.board] starts from. *)
Definition initial_board : Board :=
  let None' : Cell := None in
  [ PyList [ fixed Direction.SE (IColor RED); None';
             fixed Direction.SEW (IQuest BOOK); None';
             fixed Direction.SEW (IQuest POUCH); None';
             fixed Direction.SW (IColor YELLOW) ];
    PyDeque (replicate 7 None');
    PyList [ fixed Direction.NSE (IQuest MAP); None';
             fixed Direction.NSE (IQuest CROWN); None';
             fixed Direction.SEW (IQuest KEYS); None';
             fixed Direction.NSW (IQuest SKULL) ];
    PyDeque (replicate 7 None');
    PyList [ fixed Direction.NSE (IQuest RING); None';
             fixed Direction.NEW (IQuest CHEST); None';
             fixed Direction.NSW (IQuest EMERALD); None';
             fixed Direction.NSW (IQuest SWORD) ];
    PyDeque (replicate 7 None');
    PyList [ fixed Direction.NE (IColor GREEN); None';
             fixed Direction.NEW (IQuest CANDELABRA); None';
             fixed Direction.NEW (IQuest HELMET); None';
             fixed Direction.NW (IColor BLUE) ] ].

Definition loose_tiles : list Tile :=
  [ mkTile Direction.NEW (Some (IQuest BAT));
    mkTile Direction.NEW (Some (IQuest DRAGON));
    mkTile Direction.NEW (Some (IQuest GENIE));
    mkTile Direction.NEW (Some (IQuest GHOST));
    mkTile Direction.NEW (Some (IQuest GOBLIN));
    mkTile Direction.NEW (Some (IQuest WITCH));
    mkTile Direction.NE (Some (IQuest LIZARD));
    mkTile Direction.NE (Some (IQuest MOTH));
    mkTile Direction.NE (Some (IQuest MOUSE));
    mkTile Direction.NE (Some (IQuest SPIDER));
    mkTile Direction.NE (Some (IQuest OWL));
    mkTile Direction.NE (Some (IQuest SCARAB)) ]
  ++ replicate 13 (mkTile Direction.EW None)
  ++ replicate 9 (mkTile Direction.NE None).

(** The loop that places the loose tiles: every cell with an odd coordinate
    takes the last tile of the pool. *)
Definition place_tiles (b : Board) (pool : list Tile) : result (Board * list Tile) :=
  foldM (λ '(b, pool) '(i, j),
           if negb (i mod 2 =? 0) || negb (j mod 2 =? 0) then
             let! (tile, pool) := py_pop pool in
             let! b := board_setitem b i j (Some tile) in
             Ok (b, pool)
           else Ok (b, pool))
        (b, pool) cells.

(** The board part of [Game.__init__], run on a pool of tiles. *)
Definition setup (pool : list Tile) : result (Game * list Tile) :=
  let! (b, pool) := place_tiles initial_board pool in
  let! (tile, pool) := py_pop pool in
  let! g := compute_graph b in
  Ok (mkGame b (Some tile) g, pool).

(** [Game.__init__] up to [self.graph].  [random.shuffle] and
    [random.randint] are inputs: [shuffle] is the order the shuffle leaves,
    [randint k] the amount drawn for the [k]-th tile of the shuffled list. *)
Definition __init__ (shuffle : list Tile → list Tile) (randint : nat → Z)
    : result (Game * list Tile) :=
  let pool := shuffle loose_tiles in
  let pool := imap (λ k tile, rotate_path tile (randint k)) pool in
  setup pool.

(** ** Well-shaped boards *)

(** The shape [Game.__init__] gives the board and every [shift] keeps:
    seven rows of seven tiles, a list at the even rows and a deque at the
    odd ones, no cell left [None]. *)
Definition filled (c : Cell) : bool :=
  match c with Some _ => true | None => false end.

Definition full (c : list Cell) : bool :=
  (length c =? 7)%nat && forallb filled c.

Definition list_row (r : Row) : bool :=
  match r with PyList c => full c | PyDeque _ => false end.

Definition deque_row (r : Row) : bool :=
  match r with PyDeque c => full c | PyList _ => false end.

Definition well_shaped (b : Board) : bool :=
  match b with
  | [r0; r1; r2; r3; r4; r5; r6] =>
    list_row r0 && deque_row r1 && list_row r2 && deque_row r3 &&
    list_row r4 && deque_row r5 && list_row r6
  | _ => false
  end.

(** A game whose board is well shaped and whose free tile is there. *)
Definition well_formed (self : Game) : bool :=
  well_shaped (board self) && filled (free self).

(** The board whose cell [(i, j)] holds [f i j]. *)
Definition row_of (f : Z → Tile) : list Cell :=
  [Some (f 0); Some (f 1); Some (f 2); Some (f 3); Some (f 4); Some (f 5); Some (f 6)].

Definition grid_of (f : Z → Z → Tile) : Board :=
  [ PyList (row_of (f 0)); PyDeque (row_of (f 1)); PyList (row_of (f 2));
    PyDeque (row_of (f 3)); PyList (row_of (f 4)); PyDeque (row_of (f 5));
    PyList (row_of (f 6)) ].

Definition tile_or {A} (r : result A) (d : A) : A :=
  match r with Ok a => a | Raise _ => d end.

Definition cell_of (b : Board) (i j : Z) : Tile :=
  tile_or (tile_at b i j) (mkTile 0 None).

(** A cell read as a tile, as in [self.free.path]. *)
Definition the_tile (c : Cell) : result Tile :=
  match c with
  | Some t => Ok t
  | None => Raise AttributeError
  end.

(** The line a shift slides: row [index] when the direction has EAST or
    WEST, column [index] otherwise.  [line b direction index k] is its
    [k]-th tile, [on_line direction index p] tells whether the cell [p]
    lies on it. *)
Definition line (b : Board) (direction index k : Z) : result Tile :=
  if Direction.meets direction Direction.EW then tile_at b index k
  else tile_at b k index.

Definition on_line (direction index : Z) (p : Pos) : bool :=
  let index := if index <? 0 then index + 7 else index in
  if Direction.meets direction Direction.EW then p.1 =? index
  else p.2 =? index.

(** The single direction [shift] treats a flag as. *)
Definition masked (direction : Z) : Z :=
  if Direction.meets direction Direction.EW then
    if Direction.meets direction Direction.NW then Direction.WEST
    else Direction.EAST
  else
    if Direction.meets direction Direction.NW then Direction.NORTH
    else Direction.SOUTH.

(** The indices that address a line [shift] can slide: an odd row or
    column, or, for a column, its negative alias. *)
Definition slides (direction index : Z) : bool :=
  bool_decide (index ∈ [1; 3; 5]) ||
  (negb (Direction.meets direction Direction.EW) &&
   bool_decide (index ∈ [-1; -3; -5; -7])).

(** A game to run the definitions on: the loose tiles in the order of the
    source, the [k]-th one rotated by [k]. *)
Definition sample_game : Game :=
  tile_or (let! (self, _) := __init__ (λ pool, pool) Z.of_nat in Ok self)
          (mkGame [] None ∅).

(** What [get_adjacent] yields on the board [grid_of f], as a pure list. *)
Definition open_to (f : Z → Z → Tile) (i j : Z) (nav : Z * Z * Z) : bool :=
  let '(dir_, di, dj) := nav in
  Direction.meets (path (f i j)) dir_ && in_bounds (i + di, j + dj) &&
  Direction.meets (path (f (i + di) (j + dj))) (Direction.__lshift__ dir_ 2).

Definition neighbours (f : Z → Z → Tile) (i j : Z) : list Pos :=
  nav ← NAVIGATION;
  if open_to f i j nav then [(i + nav.1.2, j + nav.2)] else [].

(** The step relation of the traversal: [q] is yielded by
    [get_adjacent board p]. *)
Definition edge (b : Board) (p q : Pos) : Prop :=
  ∃ l, get_adjacent b p.1 p.2 = Ok l ∧ q ∈ l.

(** The cells of the board, as a set. *)
Definition all_cells : gset Pos := list_to_set cells.
#[global] Typeclasses Opaque all_cells.

(** Every explored cell outside [G] has all its neighbours explored. *)
Definition closed_outside (b : Board) (G X : gset Pos) : Prop :=
  ∀ u w, u ∈ X → u ∉ G → edge b u w → w ∈ X.

(** Every set of the graph is the set of the cells that can be reached
    from its key. *)
Definition reachable_sets (b : Board) (g : gmap Pos (gset Pos)) : Prop :=
  ∀ p S, g !! p = Some S →
         in_bounds p = true ∧ ∀ w, w ∈ S ↔ rtc (edge b) p w.

(** What the traversal of the cells [from], started with [X] explored,
    achieves when it returns [Y]. *)
Definition explores (b : Board) (from : list Pos) (X Y : gset Pos) : Prop :=
  X ⊆ Y ∧ Y ⊆ all_cells ∧
  (∀ a, a ∈ from → a ∈ Y) ∧
  (∀ w, w ∈ Y → w ∈ X ∨ ∃ a, a ∈ from ∧ rtc (edge b) a w) ∧
  (∀ G, closed_outside b G X → closed_outside b G Y).

(** The movable tiles of a board: the cells with an odd coordinate, in row
    order. *)
Definition movable (p : Pos) : bool :=
  negb (p.1 mod 2 =? 0) || negb (p.2 mod 2 =? 0).

Definition cells_where (keep : Pos → bool) (b : Board) : list (result Tile) :=
  (λ p : Pos, tile_at b p.1 p.2) <$> filter (λ p, keep p = true) cells.

Definition movable_tiles (b : Board) : list (result Tile) := cells_where movable b.

Definition fixed_tiles (b : Board) : list (result Tile) :=
  cells_where (λ p, negb (movable p)) b.

(** ** chunks *)

(** [range(start, stop, step)], as the list of its values. *)
Definition py_range (start stop step : Z) : result (list Z) :=
  if step =? 0 then Raise ValueError
  else
    let count :=
      if 0 <? step then
        if start <? stop then (stop - start - 1) / step + 1 else 0
      else
        if stop <? start then (start - stop - 1) / (- step) + 1 else 0 in
    Ok ((λ k : nat, start + Z.of_nat k * step) <$> seq 0 (Z.to_nat count)).

(** [l[i:j]]: both ends count from the end when negative and are cut to
    the length of the list. *)
Definition py_slice {A} (l : list A) (i j : Z) : list A :=
  let n := Z.of_nat (length l) in
  let clamp (x : Z) := Z.max 0 (Z.min n (if x <? 0 then x + n else x)) in
  take (Z.to_nat (clamp j - clamp i)) (drop (Z.to_nat (clamp i)) l).

(** [chunks] is a generator; it is modelled by the list of what it yields.
    [range] raises when the generator is first asked for an item. *)
Definition chunks {A} (items : list A) (n : Z) : result (list (list A)) :=
  let! starts := py_range 0 (Z.of_nat (length items)) n in
  Ok ((λ i, py_slice items i (i + n)) <$> starts).

(** ** The players *)

#[global] Instance Quest_eq_dec : EqDecision Quest.
Proof. solve_decision. Defined.
#[global] Instance Color_eq_dec : EqDecision Color.
Proof. solve_decision. Defined.
#[global] Instance Item_eq_dec : EqDecision Item.
Proof. solve_decision. Defined.

(** The exceptions of the part of the module that deals the deck and runs
    the turns: those of the board, and two more. *)
Inductive error : Set :=
| Exn (e : exn)
| KeyError
| ZeroDivisionError.

Inductive outcome (A : Type) : Type :=
| Returns (a : A)
| Raises (e : error).
Arguments Returns {A} a.
Arguments Raises {A} e.

Definition of_result {A} (r : result A) : outcome A :=
  match r with
  | Ok a => Returns a
  | Raise e => Raises (Exn e)
  end.

Definition obind {A B} (m : outcome A) (k : A → outcome B) : outcome B :=
  match m with
  | Returns a => k a
  | Raises e => Raises e
  end.

Notation "'let?' x ':=' m 'in' k" := (obind m (λ x, k))
  (at level 10, x pattern, m at level 100, k at level 200).

(** [a // b] *)
Definition py_floordiv (a b : Z) : outcome Z :=
  if b =? 0 then Raises ZeroDivisionError else Returns (a / b).

Definition PLAYER_START (c : Color) : Pos :=
  match c with
  | RED => (0, 0)
  | YELLOW => (0, 7)
  | GREEN => (7, 0)
  | BLUE => (7, 7)
  end.

(** [list(Quest)]: the members in the order of their definition. *)
Definition all_quests : list Quest :=
  [ BAT; BOOK; CANDELABRA; DRAGON; EMERALD; GHOST; HELMET; SPIDER; GENIE;
    KEYS; LIZARD; MAP; CROWN; OWL; POUCH; GOBLIN; RING; SCARAB; CHEST; SKULL;
    WITCH; SWORD; MOUSE; MOTH ].

(** The dataclass [Player].  [items] is annotated as a deque, but
    [Game.__init__] passes the list that [chunks] sliced off the deck, and a
    dataclass stores what it is given: [items] is a Python list. *)
Module Player.
Record t (C : Type) : Type := mk {
  client : C;
  color : Color;
  items : list Item;
  i : Z;
  j : Z;
}.
Arguments mk {C} client color items i j.
Arguments client {C} _.
Arguments color {C} _.
Arguments items {C} _.
Arguments i {C} _.
Arguments j {C} _.
End Player.

(** The loop of [Game.__init__] that makes the players, on the deck as
    [random.shuffle] left it: every player takes the next chunk of
    [24 // len(players)] quests, with the player's colour added at the end.
    The division is done before the loop starts, and [zip] asks [players]
    first: with a player there it asks the generator for a chunk, where
    [range] may raise.  [zip] stops with the shorter of the two. *)
Definition deal {C} (players : list (Color * C)) (deck : list Quest)
    : outcome (list (Player.t C)) :=
  let? n := py_floordiv 24 (Z.of_nat (length players)) in
  let? hands := of_result (chunks deck n) in
  Returns (zip_with
             (λ '(color, client) (hand : list Quest),
                Player.mk client color ((IQuest <$> hand) ++ [IColor color])
                          (PLAYER_START color).1 (PLAYER_START color).2)
             players hands).

(** ** Game.play *)

(** A move as a client answers it, and as [move_history] keeps it:
    direction, index, rotation, i, j. *)
Abbreviation Move := (Z * Z * Z * Z * Z)%type.

(** The whole [Game] object: the part [shift] works on, and the attributes
    [__init__] sets after it. *)
Record Session (C : Type) : Type := mkSession {
  game : Game;
  players : list (Player.t C);
  winners : list Color;
  move_history : list Move;
}.
Arguments mkSession {C} game players winners move_history.
Arguments game {C} _.
Arguments players {C} _.
Arguments winners {C} _.
Arguments move_history {C} _.

(** [Game.__init__], whole: the board, then the deal.  [shuffle_deck] is
    the order [random.shuffle] leaves the deck in. *)
Definition Game_init {C} (shuffle : list Tile → list Tile) (randint : nat → Z)
    (shuffle_deck : list Quest → list Quest) (players : list (Color * C))
    : outcome (Session C) :=
  let? (self, _) := of_result (__init__ shuffle randint) in
  let? players := deal players (shuffle_deck all_quests) in
  Returns (mkSession self players [] []).

(** [items.popleft()]: [items] is a list, and a list has no such method. *)
Definition popleft {A} (items : list A) : outcome (A * list A) :=
  Raises (Exn AttributeError).

(** How a turn of the loop of [play] ends when it does not raise: the loop
    goes on, or [play] returns. *)
Inductive flow : Set := Next | Return.

Section Play.
Context {C : Type}.

(** [player.client(self)]: what a client answers when it is called with the
    game.  A client is taken to answer with the five values [play] unpacks,
    and to leave the game as it is. *)
Variable call : C → Session C → Move.

Definition set_game (g : Game) (self : Session C) : Session C :=
  mkSession g (players self) (winners self) (move_history self).

(** The body of the loop of [play], for the player at place [k] of
    [self.players].  [play] reads the board through the global [game]: the
    model is of [game.play()], where [self] is that object. *)
Definition turn (k : nat) (self : Session C) : Session C * outcome flow :=
  match players self !! k with
  | None => (self, Returns Next)
  | Some player =>
    match Player.items player with
    | [] => (self, Returns Next)
    | _ :: _ =>
      let '(direction, index, rotation, i, j) := call (Player.client player) self in
      match py_index (move_history self) (-1) with
      | Raise e => (self, Raises (Exn e))
      | Ok (last_dir, last_index, _, _, _) =>
        if (direction =? Direction.__lshift__ last_dir 2) && (index =? last_index)
        then (self, Raises (Exn ValueError))
        else
          let '(g, shifted) := shift direction index rotation (game self) in
          let self := set_game g self in
          match shifted with
          | Raise e => (self, Raises (Exn e))
          | Ok _ =>
            match graph g !! (Player.i player, Player.j player) with
            | None => (self, Raises KeyError)
            | Some reach =>
              if decide ((i, j) ∈ reach) then
                let player :=
                  Player.mk (Player.client player) (Player.color player)
                            (Player.items player) i j in
                let self :=
                  mkSession g (<[k := player]> (players self)) (winners self)
                            (move_history self ++ [(direction, index, rotation, i, j)]) in
                match tile_at (board g) i j with
                | Raise e => (self, Raises (Exn e))
                | Ok tile =>
                  match py_index (Player.items player) 0 with
                  | Raise e => (self, Raises (Exn e))
                  | Ok first =>
                    if decide (item tile = Some first) then
                      match popleft (Player.items player) with
                      | Raises e => (self, Raises e)
                      | Returns (_, rest) =>
                        let player :=
                          Player.mk (Player.client player) (Player.color player)
                                    rest i j in
                        let self :=
                          mkSession g (<[k := player]> (players self)) (winners self)
                                    (move_history self) in
                        match rest with
                        | [] =>
                          let self :=
                            mkSession g (players self)
                                      (winners self ++ [Player.color player])
                                      (move_history self) in
                          if Z.of_nat (length (winners self)) =?
                             Z.of_nat (length (players self)) - 1
                          then (self, Returns Return)
                          else (self, Returns Next)
                        | _ :: _ => (self, Returns Next)
                        end
                      end
                    else (self, Returns Next)
                  end
                end
              else (self, Raises (Exn ValueError))
            end
          end
      end
    end
  end.

(** [n] turns of the loop, from the player at place [k] on;
    [itertools.cycle] starts again after the last player. *)
Fixpoint turns (n k : nat) (self : Session C) : Session C * outcome flow :=
  match n with
  | O => (self, Returns Next)
  | S n =>
    match turn k self with
    | (self, Returns Next) => turns n (S k mod length (players self))%nat self
    | ended => ended
    end
  end.

(** [Game.play], run for [n] turns at most: [Returns Next] tells that the
    loop is still running then.  Without players the loop ends at once. *)
Definition play (n : nat) (self : Session C) : Session C * outcome flow :=
  match players self with
  | [] => (self, Returns Return)
  | _ :: _ => turns n 0 self
  end.

End Play.

(** A session to run the turns on: the sample game with one move in its
    history; a red player at its start, a blue player at its start, and a
    yellow player that stands on its home tile with its colour left to
    find. *)
Definition sample_session : Session unit :=
  mkSession sample_game
    [ Player.mk tt RED [IQuest BAT; IColor RED] 0 0;
      Player.mk tt BLUE [IQuest BOOK; IColor BLUE] 7 7;
      Player.mk tt YELLOW [IColor YELLOW] 0 6 ]
    []
    [(Direction.NORTH, 3, 0, 0, 0)].

(** A client that answers [move] whatever the game. *)
Definition answers (move : Move) : unit → Session unit → Move := λ _ _, move.

(** ** print_sectors *)

(** [p < q] on pairs: Python compares tuples item by item. *)
Definition tuple_lt (p q : Pos) : bool :=
  (p.1 <? q.1) || ((p.1 =? q.1) && (p.2 <? q.2)).

(** [min(items)]: the first of the least items, [ValueError] when there is
    no item. *)
Definition py_min (items : list Pos) : result Pos :=
  match items with
  | [] => Raise ValueError
  | p :: items => Ok (foldl (λ m q, if tuple_lt q m then q else m) p items)
  end.

(** [sector], the local function of [print_sectors]: the label of a set of
    cells is made of the coordinates of its least cell. *)
Definition sector (adj : gset Pos) : result string :=
  let! (si, sj) := py_min (elements adj) in
  Ok (pretty si +:+ "," +:+ pretty sj).

(** The dict [sectors] that [print_sectors] builds from [self.graph]. *)
Definition sectors (graph : gmap Pos (gset Pos)) : result (gmap Pos string) :=
  foldM (λ labels '(node, adj),
           let! s := sector adj in Ok (<[node := s]> labels))
        ∅ (map_to_list graph).

(** * Theorems *)

(** ** Direction rotation *)

Section DirectionFacts.
Import Direction.

Lemma mod4_cases (a : Z) : a mod 4 = 0 ∨ a mod 4 = 1 ∨ a mod 4 = 2 ∨ a mod 4 = 3.
Proof. pose proof (Z.mod_pos_bound a 4 ltac:(lia)). lia. Qed.

Lemma valid_cases (d : Z) :
    valid d = true →
    d = 0 ∨ d = 1 ∨ d = 2 ∨ d = 3 ∨ d = 4 ∨ d = 5 ∨ d = 6 ∨ d = 7 ∨
    d = 8 ∨ d = 9 ∨ d = 10 ∨ d = 11 ∨ d = 12 ∨ d = 13 ∨ d = 14 ∨ d = 15.
Proof. unfold valid. lia. Qed.

Lemma lshift_mod (d a : Z) : __lshift__ d a = __lshift__ d (a mod 4).
Proof. unfold __lshift__. by rewrite Z.mod_mod by lia. Qed.

Ltac each_direction d H :=
    apply valid_cases in H;
    repeat (destruct H as [H | H]; [subst d | ]); [ .. | subst d].

Ltac each_amount a :=
    rewrite (lshift_mod _ a);
    destruct (mod4_cases a) as [Ha | [Ha | [Ha | Ha]]]; rewrite Ha.

Lemma lshift_valid (d a : Z) : valid d = true → valid (__lshift__ d a) = true.
Proof. intros H. each_amount a; each_direction d H; reflexivity. Qed.

Lemma lshift_0 (d : Z) : valid d = true → __lshift__ d 0 = d.
Proof. intros H. each_direction d H; reflexivity. Qed.

Lemma lshift_lshift (d a b : Z) :
    valid d = true → __lshift__ (__lshift__ d a) b = __lshift__ d ((a + b) mod 4).
Proof.
    intros H. rewrite <- (Z.add_mod_idemp_l a b), <- (Z.add_mod_idemp_r _ b) by lia.
    rewrite (lshift_mod d a), (lshift_mod _ b).
    destruct (mod4_cases a) as [Ha | [Ha | [Ha | Ha]]]; rewrite Ha;
      destruct (mod4_cases b) as [Hb | [Hb | [Hb | Hb]]]; rewrite Hb;
      each_direction d H; reflexivity.
Qed.

Lemma lshift_neg (d a : Z) : __lshift__ d (- a) = __lshift__ d ((4 - a) mod 4).
Proof.
    rewrite (lshift_mod d (- a)). f_equal.
    replace (4 - a) with (- a + 1 * 4) by lia. by rewrite Z.mod_add by lia.
Qed.

  (** C8: rotation is an action of the integers modulo 4 on the 16
      direction sets: two rotations compose to the rotation by the sum
      modulo 4, rotations by 0 and by 4 change nothing, a rotation by
      [- amount] (and so [__rshift__] by [amount]) is the rotation by
      [(4 - amount) mod 4]; every amount is accepted and the result is
      again one of the 16 values. *)
Theorem rotate_group_action (d a b : Z) :
    valid d = true →
    __lshift__ (__lshift__ d a) b = __lshift__ d ((a + b) mod 4) ∧
    __lshift__ d 0 = d ∧
    __lshift__ d 4 = d ∧
    __lshift__ d (- a) = __lshift__ d ((4 - a) mod 4) ∧
    __rshift__ d a = __lshift__ d ((4 - a) mod 4) ∧
    valid (__lshift__ d a) = true.
Proof.
    intros H. split_and!.
    - by apply lshift_lshift.
    - by apply lshift_0.
    - rewrite (lshift_mod d 4). by apply lshift_0.
    - apply lshift_neg.
    - apply lshift_neg.
    - by apply lshift_valid.
Qed.

Lemma rotate_group_action_witness :
    valid NE = true ∧
    __lshift__ (__lshift__ NE 3) (-6) = __lshift__ NE ((3 + -6) mod 4) ∧
    __lshift__ NE 0 = NE ∧
    __lshift__ NE 4 = NE ∧
    __lshift__ NE (- 3) = __lshift__ NE ((4 - 3) mod 4) ∧
    __rshift__ NE 3 = __lshift__ NE ((4 - 3) mod 4) ∧
    valid (__lshift__ NE 3) = true.
Proof. split; [reflexivity | apply (rotate_group_action NE 3 (-6)); reflexivity]. Defined.

End DirectionFacts.

(** ** Boards as grids *)

Lemma bind_ok {A B} (m : result A) (k : A → result B) (b : B) :
  bind m k = Ok b ↔ ∃ a, m = Ok a ∧ k a = Ok b.
Proof.
  destruct m as [a | e]; simpl.
  - split; [eauto | by intros (? & [= ->] & ?)].
  - split; [done | by intros (? & [=] & ?)].
Qed.

Lemma full_inv (c : list Cell) :
  full c = true →
  ∃ t0 t1 t2 t3 t4 t5 t6,
    c = [Some t0; Some t1; Some t2; Some t3; Some t4; Some t5; Some t6].
Proof.
  unfold full. intros [Hlen Hall]%andb_prop.
  do 8 (destruct c as [| [?|] c]; try discriminate); naive_solver.
Qed.

Lemma well_shaped_grid (b : Board) :
  well_shaped b = true → b = grid_of (cell_of b).
Proof.
  unfold well_shaped. intros H.
  do 8 (destruct b as [| ? b]; try discriminate).
  repeat (apply andb_prop in H as [H ?]).
  repeat match goal with
  | H : list_row ?r = true |- _ =>
    destruct r as [c | c]; [| discriminate];
    apply full_inv in H as (? & ? & ? & ? & ? & ? & ? & ->)
  | H : deque_row ?r = true |- _ =>
    destruct r as [c | c]; [discriminate |];
    apply full_inv in H as (? & ? & ? & ? & ? & ? & ? & ->)
  end.
  reflexivity.
Qed.

Lemma well_shaped_grid_of (f : Z → Z → Tile) : well_shaped (grid_of f) = true.
Proof. reflexivity. Qed.

Lemma in_bounds_cases (i j : Z) :
  in_bounds (i, j) = true →
  (i = 0 ∨ i = 1 ∨ i = 2 ∨ i = 3 ∨ i = 4 ∨ i = 5 ∨ i = 6) ∧
  (j = 0 ∨ j = 1 ∨ j = 2 ∨ j = 3 ∨ j = 4 ∨ j = 5 ∨ j = 6).
Proof. unfold in_bounds. simpl. lia. Qed.

Ltac each_cell i j H :=
  apply in_bounds_cases in H as [?Hi ?Hj];
  repeat (destruct Hi as [Hi | Hi]; [subst i |]); [ .. | subst i];
  (repeat (destruct Hj as [Hj | Hj]; [subst j |]); [ .. | subst j]).

Lemma tile_at_grid (f : Z → Z → Tile) (i j : Z) :
  in_bounds (i, j) = true → tile_at (grid_of f) i j = Ok (f i j).
Proof. intros H. each_cell i j H; reflexivity. Qed.

Lemma py_setitem_ok {A} (l : list A) (i : Z) (a v : A) :
  py_index l i = Ok a → ∃ l', py_setitem l i v = Ok l'.
Proof.
  unfold py_index, py_setitem. destruct (_ && _); [eauto | discriminate].
Qed.

Lemma row_setitem_ok (row : Row) (i : Z) (a v : Cell) :
  row_getitem row i = Ok a → ∃ row', row_setitem row i v = Ok row'.
Proof.
  unfold row_getitem, row_setitem. intros H.
  destruct row as [c | c]; simpl in H;
    destruct (py_setitem_ok c i a v H) as [c' ->]; simpl; eauto.
Qed.

(** Once the column has been gathered, writing it back cannot raise:
    [rotate_column] either raises before it changes a row or changes them
    all. *)
Lemma rotate_column_writes_back (grid : Board) (index sign : Z) (col : list Cell) :
  mapM (λ row, row_getitem row index) grid = Ok col →
  ∃ grid', rotate_column grid index sign = Ok grid'.
Proof.
  intros Hcol. unfold rotate_column. rewrite Hcol. cbn [bind].
  generalize (deque_rotate col sign). clear sign. unfold zip.
  revert col Hcol. induction grid as [| row grid IH]; intros col Hcol col'.
  - by exists [].
  - cbn [mapM] in Hcol. apply bind_ok in Hcol as (a & Ha & Hcol).
    apply bind_ok in Hcol as (col1 & Hcol1 & _).
    destruct col' as [| v col']; [by exists [] |]. cbn [zip_with mapM].
    destruct (row_setitem_ok row index a v Ha) as [row' ->].
    destruct (IH col1 Hcol1 col') as [grid' ->].
    cbn [bind]. by eexists.
Qed.

(** ** The edge rule *)

Lemma adjacent_step_grid (f : Z → Z → Tile) (i j : Z) (acc : list Pos) (nav : Z * Z * Z) :
  adjacent_step (grid_of f) (f i j) i j acc nav =
  Ok (acc ++ if open_to f i j nav then [(i + nav.1.2, j + nav.2)] else []).
Proof.
  destruct nav as [[dir_ di] dj]. unfold adjacent_step, open_to. simpl.
  destruct (Direction.meets (path (f i j)) dir_); simpl; [| by rewrite app_nil_r].
  destruct (in_bounds (i + di, j + dj)) eqn:Hin; simpl; [| by rewrite app_nil_r].
  rewrite tile_at_grid by done. simpl.
  destruct (Direction.meets _ _); by rewrite ?app_nil_r.
Qed.

Lemma foldM_adjacent_grid (f : Z → Z → Tile) (i j : Z) (navs : list (Z * Z * Z)) (acc : list Pos) :
  foldM (adjacent_step (grid_of f) (f i j) i j) acc navs =
  Ok (acc ++ (nav ← navs; if open_to f i j nav then [(i + nav.1.2, j + nav.2)] else [])).
Proof.
  revert acc. induction navs as [| nav navs IH]; intros acc; simpl.
  - by rewrite app_nil_r.
  - rewrite adjacent_step_grid. simpl. rewrite IH. by rewrite <- app_assoc.
Qed.

Lemma get_adjacent_grid (f : Z → Z → Tile) (i j : Z) :
  in_bounds (i, j) = true → get_adjacent (grid_of f) i j = Ok (neighbours f i j).
Proof.
  intros H. unfold get_adjacent. rewrite tile_at_grid by done. cbn [bind].
  by rewrite foldM_adjacent_grid.
Qed.

Lemma elem_of_neighbours (f : Z → Z → Tile) (i j : Z) (q : Pos) :
  q ∈ neighbours f i j ↔
  ∃ nav, nav ∈ NAVIGATION ∧ open_to f i j nav = true ∧ q = (i + nav.1.2, j + nav.2).
Proof.
  unfold neighbours. rewrite list_elem_of_bind. split.
  - intros (nav & Hq & Hnav). exists nav. destruct (open_to f i j nav); [| by apply elem_of_nil in Hq].
    apply list_elem_of_singleton in Hq. done.
  - intros (nav & Hnav & Hopen & ->). exists nav. rewrite Hopen. split; [| done].
    by apply list_elem_of_singleton.
Qed.

Lemma NAVIGATION_cases (nav : Z * Z * Z) :
  nav ∈ NAVIGATION ↔
  nav = (Direction.NORTH, -1, 0) ∨ nav = (Direction.EAST, 0, 1) ∨
  nav = (Direction.SOUTH, 1, 0) ∨ nav = (Direction.WEST, 0, -1).
Proof. unfold NAVIGATION. rewrite !elem_of_cons, elem_of_nil. tauto. Qed.

(** The offsets of [NAVIGATION] tell the directions apart. *)
Lemma NAVIGATION_offsets (n m : Z * Z * Z) :
  n ∈ NAVIGATION → m ∈ NAVIGATION → n.1.2 = m.1.2 → n.2 = m.2 → n = m.
Proof.
  rewrite !NAVIGATION_cases.
  intros [-> | [-> | [-> | ->]]] [-> | [-> | [-> | ->]]]; simpl; intros; done || lia.
Qed.

(** Each entry of [NAVIGATION] has an opposite one: the flag rotated by 2,
    the offsets negated. *)
Lemma NAVIGATION_opposite (n : Z * Z * Z) :
  n ∈ NAVIGATION →
  (Direction.__lshift__ n.1.1 2, - n.1.2, - n.2) ∈ NAVIGATION ∧
  Direction.__lshift__ (Direction.__lshift__ n.1.1 2) 2 = n.1.1.
Proof.
  rewrite !NAVIGATION_cases.
  intros [-> | [-> | [-> | ->]]]; vm_compute; tauto.
Qed.

Lemma edge_grid (f : Z → Z → Tile) (p q : Pos) :
  in_bounds p = true →
  edge (grid_of f) p q ↔ q ∈ neighbours f p.1 p.2.
Proof.
  destruct p as [i j]. intros H. unfold edge. simpl.
  rewrite get_adjacent_grid by done. split.
  - by intros (l & [= <-] & Hq).
  - intros Hq. by eexists.
Qed.

Lemma edge_in_bounds (f : Z → Z → Tile) (p q : Pos) :
  in_bounds p = true → edge (grid_of f) p q → in_bounds q = true.
Proof.
  intros H. rewrite edge_grid by done. rewrite elem_of_neighbours.
  intros ([[d di] dj] & _ & Hopen & ->). unfold open_to in Hopen. simpl in *.
  by apply andb_prop in Hopen as [[_ ?]%andb_prop _].
Qed.

Lemma edge_sym (f : Z → Z → Tile) (p q : Pos) :
  in_bounds p = true → edge (grid_of f) p q → edge (grid_of f) q p.
Proof.
  intros Hp Hpq. pose proof (edge_in_bounds _ _ _ Hp Hpq) as Hq.
  revert Hpq. rewrite !edge_grid by done. rewrite !elem_of_neighbours.
  intros (nav & Hnav & Hopen & ->). destruct p as [i j].
  destruct (NAVIGATION_opposite nav Hnav) as [Hopp Hback].
  eexists. split; [exact Hopp |]. destruct nav as [[d di] dj]. simpl in *.
  unfold open_to in *. simpl.
  replace (i + di + - di) with i by lia. replace (j + dj + - dj) with j by lia.
  rewrite Hback. apply andb_prop in Hopen as [[H1 H2]%andb_prop H3].
  by rewrite H1, H3, Hp.
Qed.

Ltac as_grid b H f :=
  let Hb := fresh "Hb" in
  pose proof (well_shaped_grid b H) as Hb;
  set (f := cell_of b) in Hb; clearbody f; subst b.

(** C2: on a well-shaped board, for a cell [(i, j)] and an entry
    [(dir_, di, dj)] of [NAVIGATION], [get_adjacent] yields the neighbour
    [(i + di, j + dj)] exactly when the neighbour is within the 7x7 bounds,
    the tile at [(i, j)] has [dir_] open and the neighbour's tile has
    [dir_ << 2] open; when the neighbour lacks the opposite opening there is
    no edge between the two cells in either direction. *)
Theorem edge_rule (b : Board) (i j dir_ di dj : Z) :
  well_shaped b = true →
  in_bounds (i, j) = true →
  (dir_, di, dj) ∈ NAVIGATION →
  ∃ l tile,
    get_adjacent b i j = Ok l ∧
    tile_at b i j = Ok tile ∧
    ((i + di, j + dj) ∈ l ↔
       in_bounds (i + di, j + dj) = true ∧
       Direction.meets (path tile) dir_ = true ∧
       ∃ other, tile_at b (i + di) (j + dj) = Ok other ∧
                Direction.meets (path other) (Direction.__lshift__ dir_ 2) = true) ∧
    (∀ other,
       in_bounds (i + di, j + dj) = true →
       tile_at b (i + di) (j + dj) = Ok other →
       Direction.meets (path other) (Direction.__lshift__ dir_ 2) = false →
       ¬ edge b (i, j) (i + di, j + dj) ∧ ¬ edge b (i + di, j + dj) (i, j)).
Proof.
  intros Hshape Hin Hnav. as_grid b Hshape f.
  assert (Hmem : (i + di, j + dj) ∈ neighbours f i j ↔
                 open_to f i j (dir_, di, dj) = true).
  { rewrite elem_of_neighbours. split.
    - intros (nav & Hnav' & Hopen & [= Hdi Hdj]).
      assert (nav = (dir_, di, dj)) as ->; [| done].
      apply NAVIGATION_offsets; simpl; [done | done | lia | lia].
    - intros Hopen. by exists (dir_, di, dj). }
  exists (neighbours f i j), (f i j). split_and!.
  - by apply get_adjacent_grid.
  - by apply tile_at_grid.
  - rewrite Hmem. unfold open_to. rewrite !andb_true_iff. split.
    + intros [[H1 H2] H3]. split_and!; [done | done |].
      exists (f (i + di) (j + dj)). by rewrite tile_at_grid.
    + intros (H1 & H2 & other & Hother & H3).
      rewrite tile_at_grid in Hother by done. by injection Hother as ->.
  - intros other Hin' Hother Hclosed.
    rewrite tile_at_grid in Hother by done. injection Hother as <-.
    assert (Hno : ¬ edge (grid_of f) (i, j) (i + di, j + dj)).
    { rewrite edge_grid by done. simpl. rewrite Hmem. unfold open_to.
      rewrite Hclosed. by rewrite andb_false_r. }
    split; [done |]. intros Hback. by apply Hno, edge_sym.
Qed.

Lemma edge_rule_witness :
  well_shaped (grid_of (λ i j, mkTile (if (i =? 0) && (j =? 0) then Direction.SE else Direction.EW) None)) = true ∧
  in_bounds (0, 0) = true ∧
  (Direction.EAST, 0, 1) ∈ NAVIGATION ∧
  ∃ l tile,
    get_adjacent (grid_of (λ i j, mkTile (if (i =? 0) && (j =? 0) then Direction.SE else Direction.EW) None)) 0 0 = Ok l ∧
    tile_at (grid_of (λ i j, mkTile (if (i =? 0) && (j =? 0) then Direction.SE else Direction.EW) None)) 0 0 = Ok tile ∧
    (0 + 0, 0 + 1) ∈ l.
Proof.
  assert (Hnav : (Direction.EAST, 0, 1) ∈ NAVIGATION) by (apply NAVIGATION_cases; tauto).
  split_and!; [reflexivity | reflexivity | exact Hnav |].
  destruct (edge_rule
              (grid_of (λ i j, mkTile (if (i =? 0) && (j =? 0) then Direction.SE else Direction.EW) None))
              0 0 Direction.EAST 0 1 eq_refl eq_refl Hnav)
    as (l & tile & Hl & Htile & Hiff & _).
  exists l, tile. split_and!; [exact Hl | exact Htile |].
  apply Hiff. split_and!; [reflexivity | | ].
  - injection Htile as <-. reflexivity.
  - eexists. split; reflexivity.
Defined.

(** ** The traversal *)

Lemma elem_of_range (n : nat) (i : Z) : i ∈ range n ↔ 0 ≤ i < Z.of_nat n.
Proof.
  unfold range. rewrite list_elem_of_fmap. setoid_rewrite elem_of_seq. split.
  - intros (k & -> & Hk). lia.
  - intros Hi. exists (Z.to_nat i). lia.
Qed.

Lemma elem_of_cells (p : Pos) : p ∈ cells ↔ in_bounds p = true.
Proof.
  unfold cells, in_bounds. rewrite list_elem_of_bind.
  setoid_rewrite list_elem_of_bind. setoid_rewrite elem_of_range.
  setoid_rewrite list_elem_of_singleton. destruct p as [i j]. simpl. split.
  - intros (i' & (j' & [= -> ->] & Hj) & Hi). lia.
  - intros H. exists i. split; [| lia]. exists j. split; [done | lia].
Qed.

Lemma elem_of_all_cells (p : Pos) : p ∈ all_cells ↔ in_bounds p = true.
Proof. unfold all_cells. by rewrite elem_of_list_to_set, elem_of_cells. Qed.

Lemma size_all_cells : size all_cells = 49%nat.
Proof. by vm_compute. Qed.

Section Traversal.
Context (f : Z → Z → Tile).

Local Abbreviation b := (grid_of f).
Local Abbreviation reach := (rtc (edge b)).

Lemma reach_in_bounds (p q : Pos) :
    in_bounds p = true → reach p q → in_bounds q = true.
Proof. intros Hp Hpq. induction Hpq; eauto using edge_in_bounds. Qed.

Lemma reach_sym (p q : Pos) : in_bounds p = true → reach p q → reach q p.
Proof.
    intros Hp Hpq. induction Hpq as [| x y z Hxy Hyz IH]; [done |].
    eapply rtc_r; [apply IH; by eapply edge_in_bounds |]. by apply edge_sym.
Qed.

Lemma fuel_left (p : Pos) (X : gset Pos) (n : nat) :
    p ∈ all_cells → p ∉ X →
    (size (all_cells ∖ X) ≤ S n)%nat →
    (size (all_cells ∖ ({[p]} ∪ X)) ≤ n)%nat.
Proof.
    intros Hp HX Hsize.
    assert (all_cells ∖ ({[p]} ∪ X) ⊂ all_cells ∖ X) as Hlt%subset_size; [| lia].
    split; [set_solver |]. intros Hsub. specialize (Hsub p). set_solver.
Qed.

Lemma fuel_mono (X Y : gset Pos) (n : nat) :
    X ⊆ Y → (size (all_cells ∖ X) ≤ n)%nat → (size (all_cells ∖ Y) ≤ n)%nat.
Proof.
    intros Hsub Hsize.
    assert (all_cells ∖ Y ⊆ all_cells ∖ X) as Hle%subseteq_size by set_solver. lia.
Qed.

  (** The loop of [traverse] over the adjacent cells, given that the
      recursive calls with fuel [n] behave. *)
Lemma traverse_loop (n : nat) :
    (∀ p X, in_bounds p = true → p ∉ X → X ⊆ all_cells →
            (size (all_cells ∖ X) ≤ n)%nat →
            ∃ Y, traverse n b p.1 p.2 X = Ok Y ∧ explores b [p] X Y) →
    ∀ adjs X, (∀ a, a ∈ adjs → in_bounds a = true) → X ⊆ all_cells →
              (size (all_cells ∖ X) ≤ n)%nat →
      ∃ Y, foldM (λ explored adj,
                    if decide (adj ∈ explored) then Ok explored
                    else traverse n b adj.1 adj.2 explored) X adjs = Ok Y ∧
           explores b adjs X Y.
Proof.
    intros IHn adjs. induction adjs as [| a adjs IH]; intros X Hadjs HX Hsize.
    - exists X. split; [done |]. unfold explores. split_and!; try done.
      + by intros a Ha%elem_of_nil.
      + auto.
    - simpl. assert (Hstep : ∃ X', (if decide (a ∈ X) then Ok X
                                   else traverse n b a.1 a.2 X) = Ok X' ∧
                                  explores b [a] X X').
      { destruct (decide (a ∈ X)) as [Ha | Ha].
        - exists X. split; [done |]. unfold explores. split_and!; try done.
          + by intros a' ->%list_elem_of_singleton.
          + auto.
        - apply IHn; try done. apply Hadjs. by left. }
      destruct Hstep as (X' & -> & HXX' & HX' & Ha & Hsound & Hclosed). simpl.
      destruct (IH X') as (Y & -> & HX'Y & HY & Hall & Hsound' & Hclosed').
      { intros a' Ha'. apply Hadjs. by right. }
      { done. }
      { by eapply fuel_mono. }
      exists Y. split; [done |]. unfold explores. split_and!.
      + set_solver.
      + done.
      + intros a' [-> | Ha']%elem_of_cons; [| by apply Hall].
        apply HX'Y, Ha. by apply list_elem_of_singleton.
      + intros w Hw. destruct (Hsound' w Hw) as [Hw' | (a' & Ha' & Hreach)].
        * destruct (Hsound w Hw') as [? | (a' & ->%list_elem_of_singleton & Hreach)];
            [by left |].
          right. exists a. split; [by left | done].
        * right. exists a'. split; [by right | done].
      + intros G HG. by apply Hclosed', Hclosed.
Qed.

  (** [traverse] with enough fuel returns, and what it returns. *)
Lemma traverse_explores (n : nat) (p : Pos) (X : gset Pos) :
    in_bounds p = true → p ∉ X → X ⊆ all_cells →
    (size (all_cells ∖ X) ≤ n)%nat →
    ∃ Y, traverse n b p.1 p.2 X = Ok Y ∧ explores b [p] X Y.
Proof.
    revert p X. induction n as [| n IHn]; intros p X Hp HpX HX Hsize.
    - exfalso. assert (all_cells ∖ X ≡ ∅) as Hempty by (apply size_empty_inv; lia).
      apply elem_of_all_cells in Hp. set_solver.
    - destruct p as [i j]. simpl. rewrite get_adjacent_grid by done. simpl.
      destruct (traverse_loop n IHn (neighbours f i j) ({[(i, j)]} ∪ X))
        as (Y & -> & HXY & HY & Hall & Hsound & Hclosed).
      { intros a Ha. eapply edge_in_bounds; [exact Hp |]. by apply edge_grid. }
      { apply elem_of_all_cells in Hp. set_solver. }
      { apply fuel_left; [by apply elem_of_all_cells | done | done]. }
      exists Y. split; [done |]. unfold explores. split_and!.
      + set_solver.
      + done.
      + intros a ->%list_elem_of_singleton. set_solver.
      + intros w Hw. destruct (Hsound w Hw) as [Hw' | (a & Ha & Hreach)].
        * apply elem_of_union in Hw' as [->%elem_of_singleton | Hw'];
            [| by left].
          right. exists (i, j). split; [by apply list_elem_of_singleton | done].
        * right. exists (i, j). split; [by apply list_elem_of_singleton |].
          eapply rtc_l; [| exact Hreach]. by apply edge_grid.
      + intros G HG u w Hu HuG Huw.
        destruct (decide (u = (i, j))) as [-> | Hne].
        * apply Hall. by apply edge_grid in Huw.
        * apply (Hclosed (G ∪ {[(i, j)]})) with u; [| done | set_solver | done].
          intros u' w' Hu' Hu'G Hedge.
          assert (u' ∈ X) by set_solver.
          assert (w' ∈ X); [| set_solver]. apply (HG u'); [done | set_solver | done].
Qed.

  (** A traversal started on an empty set returns exactly the cells that can
      be reached from its start. *)
Lemma traverse_reach (p : Pos) :
    in_bounds p = true →
    ∃ Y, traverse traverse_fuel b p.1 p.2 ∅ = Ok Y ∧
         ∀ w, w ∈ Y ↔ reach p w.
Proof.
    intros Hp.
    destruct (traverse_explores traverse_fuel p ∅)
      as (Y & HY & _ & _ & Hall & Hsound & Hclosed).
    { done. }
    { apply not_elem_of_empty. }
    { apply empty_subseteq. }
    { rewrite difference_empty_L, size_all_cells. done. }
    exists Y. split; [done |]. intros w. split.
    - intros Hw. destruct (Hsound w Hw) as [? | (a & ->%list_elem_of_singleton & ?)];
        [set_solver | done].
    - revert w. apply rtc_ind_r.
      + apply Hall. by apply list_elem_of_singleton.
      + intros y z Hxy Hyz IH.
        apply (Hclosed ∅) with y; [| done | set_solver | done].
        intros ? ? []%not_elem_of_empty.
Qed.

(** [for node in explored: graph[node] = explored] *)
Lemma lookup_assign_all (V S : gset Pos) (g : gmap Pos (gset Pos)) (p : Pos) :
  set_fold (λ node g, <[node := V]> g) g S !! p =
  if decide (p ∈ S) then Some V else g !! p.
Proof.
  unfold set_fold. simpl.
  assert (∀ l : list Pos,
            foldr (λ node g, <[node := V]> g) g l !! p =
            if decide (p ∈ l) then Some V else g !! p) as Hl.
  { induction l as [| a l IH]; cbn [foldr].
    - destruct (decide (p ∈ [])) as [H | H]; [by apply elem_of_nil in H | done].
    - destruct (decide (a = p)) as [-> | Hne].
      + rewrite lookup_insert_eq.
        destruct (decide (p ∈ p :: l)) as [H | H]; [done |].
        exfalso. apply H. by left.
      + rewrite lookup_insert_ne by done. rewrite IH.
        destruct (decide (p ∈ l)) as [Hin | Hin];
          destruct (decide (p ∈ a :: l)) as [Hin' | Hin']; try done.
        * exfalso. apply Hin'. by right.
        * exfalso. apply elem_of_cons in Hin' as [-> | ?]; done. }
  rewrite Hl.
  destruct (decide (p ∈ S)) as [Hin | Hin];
    destruct (decide (p ∈ elements S)) as [Hin' | Hin']; try done.
  - exfalso. by apply Hin', elem_of_elements.
  - exfalso. by apply Hin, elem_of_elements.
Qed.

Lemma compute_graph_loop (l : list Pos) (g : gmap Pos (gset Pos)) :
  reachable_sets b g →
  (∀ c, c ∈ l → in_bounds c = true) →
  ∃ g',
    foldM (λ graph '(i, j),
             match graph !! (i, j) with
             | Some _ => Ok graph
             | None =>
               let! explored := traverse traverse_fuel b i j ∅ in
               Ok (set_fold (λ node g, <[node := explored]> g) graph explored)
             end) g l = Ok g' ∧
    reachable_sets b g' ∧
    (∀ p, is_Some (g !! p) → is_Some (g' !! p)) ∧
    (∀ c, c ∈ l → is_Some (g' !! c)).
Proof.
  revert g. induction l as [| [i j] l IH]; intros g Hg Hl.
  - exists g. split_and!; try done. by intros c Hc%elem_of_nil.
  - assert (Hij : in_bounds (i, j) = true) by (apply Hl; by left).
    assert (Hstep : ∃ g1,
               match g !! (i, j) with
               | Some _ => Ok g
               | None =>
                 let! explored := traverse traverse_fuel b i j ∅ in
                 Ok (set_fold (λ node g, <[node := explored]> g) g explored)
               end = Ok g1 ∧
               reachable_sets b g1 ∧
               (∀ p, is_Some (g !! p) → is_Some (g1 !! p)) ∧
               is_Some (g1 !! (i, j))).
    { destruct (g !! (i, j)) as [S |] eqn:Hlook.
      - exists g. by rewrite Hlook.
      - destruct (traverse_reach (i, j) Hij) as (Y & HY & Hreach).
        cbn [fst snd] in HY. rewrite HY. cbn [bind]. eexists. split; [done |]. split_and!.
        + intros p S. rewrite lookup_assign_all.
          destruct (decide (p ∈ Y)) as [Hp | Hp]; [| by apply Hg].
          intros [= <-]. apply Hreach in Hp.
          split; [by eapply reach_in_bounds |].
          intros w. rewrite Hreach. split; intros Hw.
          * etrans; [| exact Hw]. by apply reach_sym.
          * by etrans.
        + intros p Hp. rewrite lookup_assign_all. by destruct (decide (p ∈ Y)).
        + rewrite lookup_assign_all. rewrite decide_True; [done |].
          by apply Hreach. }
    destruct Hstep as (g1 & Hg1 & Hinv & Hkeep & Hhere).
    destruct (IH g1) as (g' & Hg' & Hinv' & Hkeep' & Hall).
    { done. }
    { intros c Hc. apply Hl. by right. }
    exists g'. split_and!.
    + cbn [foldM]. rewrite Hg1. cbn [bind]. exact Hg'.
    + done.
    + auto.
    + intros c [-> | Hc]%elem_of_cons; auto.
Qed.

End Traversal.

(** [compute_graph] returns on every well-shaped board; the set it stores
    for a cell is the set of the cells reachable from it, and every one of
    the 49 cells has one. *)
Lemma compute_graph_reach (b : Board) :
  well_shaped b = true →
  ∃ g, compute_graph b = Ok g ∧ reachable_sets b g ∧
       ∀ p, in_bounds p = true → is_Some (g !! p).
Proof.
  intros Hshape. as_grid b Hshape f.
  destruct (compute_graph_loop f cells ∅) as (g & Hg & Hinv & _ & Hall).
  { intros p S. by rewrite lookup_empty. }
  { intros c. by rewrite elem_of_cells. }
  exists g. split_and!; [exact Hg | done |].
  intros p Hp. by apply Hall, elem_of_cells.
Qed.

(** C3: on a well-shaped board [compute_graph] returns a graph in which
    every one of the 49 cells has a set that contains the cell itself;
    a cell that lies in the set of another has the same set; the sets hold
    cells of the board only, and two of them are equal or disjoint, so they
    partition the 49 cells. *)
Theorem graph_partition (b : Board) :
  well_shaped b = true →
  ∃ g, compute_graph b = Ok g ∧
    (∀ p, in_bounds p = true → ∃ S, g !! p = Some S ∧ p ∈ S) ∧
    (∀ p q S, g !! p = Some S → q ∈ S → g !! q = Some S) ∧
    (∀ p S, g !! p = Some S → in_bounds p = true ∧ S ⊆ all_cells) ∧
    (∀ p q S T, g !! p = Some S → g !! q = Some T → S = T ∨ S ## T).
Proof.
  intros Hshape. destruct (compute_graph_reach b Hshape) as (g & Hg & Hinv & Hall).
  pose proof Hshape as Hshape'. as_grid b Hshape' f.
  assert (Hsame : ∀ p q S T, g !! p = Some S → g !! q = Some T →
                             rtc (edge (grid_of f)) p q → S = T).
  { intros p q S T HS HT Hpq. destruct (Hinv p S HS) as [Hp HS'].
    destruct (Hinv q T HT) as [Hq HT']. apply set_eq. intros w.
    rewrite HS', HT'. split; intros Hw.
    - etrans; [| exact Hw]. by apply reach_sym.
    - by etrans. }
  exists g. split_and!; [exact Hg | | | |].
  - intros p Hp. destruct (Hall p Hp) as [S HS]. exists S. split; [done |].
    by apply (Hinv p S HS).
  - intros p q S HS Hq. destruct (Hinv p S HS) as [Hp HS'].
    apply HS' in Hq. destruct (Hall q) as [T HT]; [by eapply reach_in_bounds |].
    rewrite HT. f_equal. symmetry. by eapply Hsame.
  - intros p S HS. destruct (Hinv p S HS) as [Hp HS']. split; [done |].
    intros w Hw%HS'. apply elem_of_all_cells. by eapply reach_in_bounds.
  - intros p q S T HS HT. destruct (set_choose_or_empty (S ∩ T)) as [[w Hw] | Hempty].
    + left. apply elem_of_intersection in Hw as [HwS HwT].
      destruct (Hinv p S HS) as [Hp HS']. destruct (Hinv q T HT) as [Hq HT'].
      apply HS' in HwS. apply HT' in HwT. eapply Hsame; [done | done |].
      etrans; [exact HwS |]. by apply reach_sym.
    + right. by apply disjoint_intersection.
Qed.

(** ** The shift *)

(** What a shift does to a well-shaped board, for every flag: the free
    tile is rotated, the line slides by one place and the two tiles at its
    end are exchanged with the free tile.  A flag with NORTH or WEST puts the
    rotated free tile at place 0 and takes the tile of place 6; any other
    flag puts it at place 6 and takes the tile of place 0. *)
Lemma shift_slides (self : Game) (direction index rotation : Z) (t : Tile) :
  well_shaped (board self) = true →
  free self = Some t →
  slides direction index = true →
  ∃ self',
    shift direction index rotation self = (self', Ok tt) ∧
    well_formed self' = true ∧
    compute_graph (board self') = Ok (graph self') ∧
    (∀ p, in_bounds p = true → on_line direction index p = false →
          tile_at (board self') p.1 p.2 = tile_at (board self) p.1 p.2) ∧
    if Direction.meets direction Direction.NW then
      the_tile (free self') = line (board self) direction index 6 ∧
      line (board self') direction index 0 = Ok (rotate_path t rotation) ∧
      ∀ k, 0 ≤ k < 6 →
           line (board self') direction index (k + 1) = line (board self) direction index k
    else
      the_tile (free self') = line (board self) direction index 0 ∧
      line (board self') direction index 6 = Ok (rotate_path t rotation) ∧
      ∀ k, 0 ≤ k < 6 →
           line (board self') direction index k = line (board self) direction index (k + 1).
Proof.
  intros Hshape Hfree Hidx. destruct self as [b fr g]. simpl in *. subst fr.
  as_grid b Hshape f.
  remember (shift direction index rotation (mkGame (grid_of f) (Some t) g)) as res eqn:Hres.
  unfold shift in Hres. unfold slides in Hidx. unfold line, on_line.
  destruct (Direction.meets direction Direction.NW) eqn:HNW;
  destruct (Direction.meets direction Direction.EW) eqn:HEW;
  simpl in Hidx; rewrite ?orb_false_r in Hidx;
  [ apply bool_decide_eq_true_1 in Hidx
  | apply orb_prop in Hidx as [Hidx%bool_decide_eq_true_1 | Hidx%bool_decide_eq_true_1]
  | apply bool_decide_eq_true_1 in Hidx
  | apply orb_prop in Hidx as [Hidx%bool_decide_eq_true_1 | Hidx%bool_decide_eq_true_1] ];
  rewrite !elem_of_cons, elem_of_nil in Hidx;
  (repeat (destruct Hidx as [-> | Hidx]); [ .. | done]).
  all: cbv -[compute_graph rotate_path] in Hres.
  all: match type of Hres with
       | context [compute_graph ?B] =>
         destruct (compute_graph_reach B eq_refl) as (g' & Hg' & _);
         rewrite Hg' in Hres
       end.
  all: subst res; eexists; split; [reflexivity |].
  all: split; [reflexivity |]; split; [exact Hg' |].
  all: split;
    [ intros [i j] Hin Hoff; each_cell i j Hin; first [discriminate Hoff | reflexivity] |].
  all: split; [reflexivity |]; split; [reflexivity |].
  all: intros k Hk; assert (k = 0 ∨ k = 1 ∨ k = 2 ∨ k = 3 ∨ k = 4 ∨ k = 5) as Hk' by lia;
    repeat (destruct Hk' as [-> | Hk']); [ .. | subst k ]; reflexivity.
Qed.

Lemma py_index_out_of_range {A} (l : list A) (i : Z) :
  i < - Z.of_nat (length l) ∨ Z.of_nat (length l) ≤ i →
  py_index l i = Raise IndexError.
Proof.
  intros Hi. unfold py_index.
  destruct (i <? 0) eqn:Hneg;
    [apply Z.ltb_lt in Hneg | apply Z.ltb_ge in Hneg];
    (destruct (_ && _) eqn:Hin; [| done]);
    apply andb_prop in Hin as [?%Z.leb_le ?%Z.ltb_lt]; lia.
Qed.

(** An odd index outside the board: the free tile has been rotated when
    the lookup raises. *)
Lemma shift_out_of_range (self : Game) (direction index rotation : Z) (t : Tile) :
  well_shaped (board self) = true →
  free self = Some t →
  index mod 2 ≠ 0 →
  index < -7 ∨ 7 ≤ index →
  shift direction index rotation self =
  (mkGame (board self) (Some (rotate_path t rotation)) (graph self), Raise IndexError).
Proof.
  intros Hshape Hfree Hodd Hout. destruct self as [b fr g]. simpl in *. subst fr.
  as_grid b Hshape f. unfold shift.
  rewrite (proj2 (Z.eqb_neq _ _) Hodd).
  destruct (Direction.meets direction Direction.NW);
    destruct (Direction.meets direction Direction.EW);
    cbv [mbind rotate_free get set_free set_board set_graph lift mraise free board graph];
    try (rewrite py_index_out_of_range by (simpl; lia); reflexivity);
    unfold rotate_column, grid_of; cbn [mapM]; unfold row_getitem at 1;
    rewrite py_index_out_of_range by (simpl; lia); reflexivity.
Qed.

(** ** C5: even indices are rejected *)

(** C5: for every direction and rotation, [shift] at an even index (0, 2, 4
    or 6) raises [ValueError] and leaves the board, the free tile and the
    graph as they were. *)
Theorem shift_rejects_even (self : Game) (direction index rotation : Z) :
  index ∈ [0; 2; 4; 6] →
  shift direction index rotation self = (self, Raise ValueError).
Proof.
  rewrite !elem_of_cons, elem_of_nil.
  intros [-> | [-> | [-> | [-> | []]]]]; reflexivity.
Qed.

Lemma shift_rejects_even_witness :
  4 ∈ [0; 2; 4; 6] ∧
  shift Direction.WEST 4 3 sample_game = (sample_game, Raise ValueError).
Proof.
  assert (H : 4 ∈ [0; 2; 4; 6]) by (rewrite !elem_of_cons; tauto).
  split; [exact H | exact (shift_rejects_even sample_game Direction.WEST 4 3 H)].
Defined.

Lemma sample_game_shaped : well_shaped (board sample_game) = true.
Proof. by vm_compute. Qed.

Lemma sample_game_free :
  free sample_game = Some (mkTile Direction.NEW (Some (IQuest BAT))).
Proof. by vm_compute. Qed.

(** ** C4: combined flags *)

(** C4, as the code has it: a flag is never rejected.  [shift] looks at two
    masks only, so any flag acts as one of the four single directions
    ([masked]): on a well-shaped board and an odd index 1, 3 or 5 the call
    returns without an exception, and it does what the call with the masked
    direction does. *)
Theorem shift_masks_direction (self : Game) (direction index rotation : Z) (t : Tile) :
  well_shaped (board self) = true →
  free self = Some t →
  index ∈ [1; 3; 5] →
  (shift direction index rotation self).2 = Ok tt ∧
  masked direction ∈ [Direction.NORTH; Direction.EAST; Direction.SOUTH; Direction.WEST] ∧
  shift direction index rotation self = shift (masked direction) index rotation self.
Proof.
  intros Hshape Hfree Hidx. split_and!.
  - destruct (shift_slides self direction index rotation t Hshape Hfree)
      as (self' & -> & _); [| done].
    unfold slides. by rewrite bool_decide_eq_true_2.
  - unfold masked. rewrite !elem_of_cons.
    destruct (Direction.meets direction Direction.EW);
      destruct (Direction.meets direction Direction.NW); tauto.
  - unfold shift, masked.
    destruct (Direction.meets direction Direction.NW);
      destruct (Direction.meets direction Direction.EW); reflexivity.
Qed.

Lemma shift_masks_direction_witness :
  well_shaped (board sample_game) = true ∧
  free sample_game = Some (mkTile Direction.NEW (Some (IQuest BAT))) ∧
  3 ∈ [1; 3; 5] ∧
  (shift Direction.NE 3 1 sample_game).2 = Ok tt ∧
  masked Direction.NE ∈ [Direction.NORTH; Direction.EAST; Direction.SOUTH; Direction.WEST] ∧
  shift Direction.NE 3 1 sample_game = shift (masked Direction.NE) 3 1 sample_game.
Proof.
  assert (H : 3 ∈ [1; 3; 5]) by (rewrite !elem_of_cons; tauto).
  split_and!; [by vm_compute | by vm_compute | exact H | ..];
    apply (shift_masks_direction sample_game Direction.NE 3 1 _
             sample_game_shaped sample_game_free H).
Defined.

(** C4 as stated fails: with the two-flag values NE and NS the call
    returns normally; NE has slid row 1 as WEST does and NS column 1 as
    NORTH does, the free tile entering at place 0. *)
Lemma shift_accepts_combined_flags :
  (shift Direction.NE 1 0 sample_game).2 = Ok tt ∧
  (shift Direction.NS 1 0 sample_game).2 = Ok tt ∧
  the_tile (free sample_game) = Ok (mkTile Direction.NEW (Some (IQuest BAT))) ∧
  tile_at (board (shift Direction.NE 1 0 sample_game).1) 1 0 =
    Ok (mkTile Direction.NEW (Some (IQuest BAT))) ∧
  tile_at (board (shift Direction.NS 1 0 sample_game).1) 0 1 =
    Ok (mkTile Direction.NEW (Some (IQuest BAT))).
Proof. split_and!; vm_compute; reflexivity. Qed.

(** ** C1: which way the line moves *)

(** C1, as the code has it: on a well-shaped board, [shift] with EAST,
    index 1 and rotation 0 moves every tile of row 1 one column to the left
    (towards column 0), makes the tile that was at column 0 the free tile
    and puts the former free tile at column 6.  In general a flag with NORTH
    or WEST puts the rotated free tile at place 0 of the line, moves the
    others one place up and frees the tile that was at place 6; any other
    flag (SOUTH, EAST) puts it at place 6, moves the others one place down
    and frees the tile that was at place 0. *)
Theorem shift_east_slides_left (self : Game) (t : Tile) :
  well_shaped (board self) = true →
  free self = Some t →
  Direction.valid (path t) = true →
  (∃ self',
     shift Direction.EAST 1 0 self = (self', Ok tt) ∧
     (∀ j, 0 ≤ j < 6 →
           tile_at (board self') 1 j = tile_at (board self) 1 (j + 1)) ∧
     the_tile (free self') = tile_at (board self) 1 0 ∧
     tile_at (board self') 1 6 = Ok t) ∧
  (∀ direction index rotation,
     index ∈ [1; 3; 5] →
     ∃ self',
       shift direction index rotation self = (self', Ok tt) ∧
       if Direction.meets direction Direction.NW then
         the_tile (free self') = line (board self) direction index 6 ∧
         line (board self') direction index 0 = Ok (rotate_path t rotation) ∧
         ∀ k, 0 ≤ k < 6 →
              line (board self') direction index (k + 1) =
              line (board self) direction index k
       else
         the_tile (free self') = line (board self) direction index 0 ∧
         line (board self') direction index 6 = Ok (rotate_path t rotation) ∧
         ∀ k, 0 ≤ k < 6 →
              line (board self') direction index k =
              line (board self) direction index (k + 1)).
Proof.
  intros Hshape Hfree Hvalid. split.
  - destruct (shift_slides self Direction.EAST 1 0 t Hshape Hfree eq_refl)
      as (self' & Hshift & _ & _ & _ & Hfree' & Hlast & Hmove).
    exists self'. split_and!; [done | exact Hmove | exact Hfree' |].
    unfold line in Hlast. simpl in Hlast. rewrite Hlast.
    unfold rotate_path. rewrite lshift_0 by done. by destruct t.
  - intros direction index rotation Hidx.
    destruct (shift_slides self direction index rotation t Hshape Hfree)
      as (self' & Hshift & _ & _ & _ & Hslide).
    { unfold slides. by rewrite bool_decide_eq_true_2. }
    by exists self'.
Qed.

Lemma shift_east_slides_left_witness :
  well_shaped (board sample_game) = true ∧
  free sample_game = Some (mkTile Direction.NEW (Some (IQuest BAT))) ∧
  Direction.valid (path (mkTile Direction.NEW (Some (IQuest BAT)))) = true ∧
  ∃ self',
    shift Direction.EAST 1 0 sample_game = (self', Ok tt) ∧
    (∀ j, 0 ≤ j < 6 →
          tile_at (board self') 1 j = tile_at (board sample_game) 1 (j + 1)) ∧
    the_tile (free self') = tile_at (board sample_game) 1 0 ∧
    tile_at (board self') 1 6 = Ok (mkTile Direction.NEW (Some (IQuest BAT))).
Proof.
  split_and!; [exact sample_game_shaped | exact sample_game_free | reflexivity |].
  exact (proj1 (shift_east_slides_left sample_game _
                  sample_game_shaped sample_game_free eq_refl)).
Defined.

(** C1 as stated fails: after [shift] EAST on row 1 of the sample game the
    former free tile is at column 6, not 0; the new free tile is the one
    that was at column 0, not 6; and column 1 holds what was at column 2,
    not what was at column 0. *)
Lemma shift_east_not_rightward :
  ∃ self',
    shift Direction.EAST 1 0 sample_game = (self', Ok tt) ∧
    tile_at (board self') 1 0 ≠ the_tile (free sample_game) ∧
    the_tile (free self') ≠ tile_at (board sample_game) 1 6 ∧
    tile_at (board self') 1 1 ≠ tile_at (board sample_game) 1 0 ∧
    tile_at (board self') 1 6 = the_tile (free sample_game) ∧
    the_tile (free self') = tile_at (board sample_game) 1 0.
Proof.
  exists (shift Direction.EAST 1 0 sample_game).1.
  split_and!; vm_compute; (reflexivity || discriminate).
Qed.

(** ** C10: negative odd indices *)

Ltac run_shift Hres :=
  cbv -[compute_graph rotate_path] in Hres;
  try match type of Hres with
      | context [compute_graph ?B] =>
        let g' := fresh "g'" in
        let Hg' := fresh "Hg'" in
        destruct (compute_graph_reach B eq_refl) as (g' & Hg' & _);
        rewrite Hg' in Hres
      end.

Ltac each_place k Hk :=
  let Hk' := fresh "Hk'" in
  assert (k = 0 ∨ k = 1 ∨ k = 2 ∨ k = 3 ∨ k = 4 ∨ k = 5) as Hk' by lia;
  repeat (destruct Hk' as [-> | Hk']); [ .. | subst k ].

(** A row shift at a negative odd index finds a list, which has no
    [rotate]: the free tile has been rotated, the board is as it was. *)
Lemma shift_negative_row (self : Game) (direction index rotation : Z) (t : Tile) :
  well_shaped (board self) = true →
  free self = Some t →
  Direction.meets direction Direction.EW = true →
  index ∈ [-1; -3; -5; -7] →
  shift direction index rotation self =
  (mkGame (board self) (Some (rotate_path t rotation)) (graph self),
   Raise AttributeError).
Proof.
  intros Hshape Hfree HEW Hidx. destruct self as [b fr g]. simpl in *. subst fr.
  as_grid b Hshape f. unfold shift. rewrite HEW.
  rewrite !elem_of_cons, elem_of_nil in Hidx.
  destruct (Direction.meets direction Direction.NW);
    (repeat (destruct Hidx as [-> | Hidx]); [ .. | done]); reflexivity.
Qed.

(** C10: a negative odd index passes the parity test.  On a well-shaped
    board no negative odd index makes [shift] raise [ValueError]; with a
    column direction and index -1 the call returns normally and has slid
    column 6, the column of fixed tiles: with NORTH the rotated free tile is
    at [(0, 6)], the tiles of the column are one row further down and the
    fixed corner tile of [(6, 6)] is the free tile; with a row direction the
    free tile has been rotated when the call raises [AttributeError]. *)
Theorem shift_negative_index (self : Game) (direction rotation : Z) (t : Tile) :
  well_shaped (board self) = true →
  free self = Some t →
  (∀ index, index < 0 → index mod 2 = 1 →
            (shift direction index rotation self).2 ≠ Raise ValueError) ∧
  (Direction.meets direction Direction.EW = false →
   ∃ self',
     shift direction (-1) rotation self = (self', Ok tt) ∧
     (∀ i j, in_bounds (i, j) = true → j ≠ 6 →
             tile_at (board self') i j = tile_at (board self) i j) ∧
     if Direction.meets direction Direction.NW then
       the_tile (free self') = tile_at (board self) 6 6 ∧
       tile_at (board self') 0 6 = Ok (rotate_path t rotation) ∧
       ∀ k, 0 ≤ k < 6 → tile_at (board self') (k + 1) 6 = tile_at (board self) k 6
     else
       the_tile (free self') = tile_at (board self) 0 6 ∧
       tile_at (board self') 6 6 = Ok (rotate_path t rotation) ∧
       ∀ k, 0 ≤ k < 6 → tile_at (board self') k 6 = tile_at (board self) (k + 1) 6) ∧
  (Direction.meets direction Direction.EW = true →
   ∀ index, index ∈ [-1; -3; -5; -7] →
     shift direction index rotation self =
     (mkGame (board self) (Some (rotate_path t rotation)) (graph self),
      Raise AttributeError)).
Proof.
  intros Hshape Hfree. split_and!.
  - intros index Hneg Hodd.
    destruct (decide (index < -7)) as [Hout | Hin].
    { rewrite (shift_out_of_range self direction index rotation t); try done; lia. }
    assert (Hidx : index ∈ [-1; -3; -5; -7]).
    { rewrite !elem_of_cons.
      assert (index = -1 ∨ index = -2 ∨ index = -3 ∨ index = -4 ∨
              index = -5 ∨ index = -6 ∨ index = -7) as Hc by lia.
      destruct Hc as [-> | [-> | [-> | [-> | [-> | [-> | ->]]]]]];
        try discriminate Hodd; tauto. }
    destruct (Direction.meets direction Direction.EW) eqn:HEW.
    + by rewrite (shift_negative_row self direction index rotation t).
    + destruct (shift_slides self direction index rotation t Hshape Hfree)
        as (self' & -> & _); [| done].
      unfold slides. rewrite HEW. simpl.
      rewrite (bool_decide_eq_true_2 _ Hidx). apply orb_true_r.
  - intros HEW. destruct self as [b fr g]. simpl in *. subst fr.
    as_grid b Hshape f.
    remember (shift direction (-1) rotation (mkGame (grid_of f) (Some t) g))
      as res eqn:Hres.
    unfold shift in Hres. rewrite HEW in Hres.
    destruct (Direction.meets direction Direction.NW) eqn:HNW;
      run_shift Hres; subst res; eexists; (split; [reflexivity |]);
      (split; [intros i j Hin Hne; each_cell i j Hin; first [done | reflexivity] |]);
      (split; [reflexivity |]); (split; [reflexivity |]);
      intros k Hk; each_place k Hk; reflexivity.
  - intros HEW index Hidx. by apply shift_negative_row.
Qed.

Lemma shift_negative_index_witness :
  well_shaped (board sample_game) = true ∧
  free sample_game = Some (mkTile Direction.NEW (Some (IQuest BAT))) ∧
  ∃ self',
    shift Direction.NORTH (-1) 1 sample_game = (self', Ok tt) ∧
    the_tile (free self') = tile_at (board sample_game) 6 6 ∧
    tile_at (board self') 0 6 =
      Ok (rotate_path (mkTile Direction.NEW (Some (IQuest BAT))) 1).
Proof.
  split_and!; [exact sample_game_shaped | exact sample_game_free |].
  destruct (proj1 (proj2 (shift_negative_index sample_game Direction.NORTH 1 _
                            sample_game_shaped sample_game_free)) eq_refl)
    as (self' & Hshift & _ & Hfree & Hput & _).
  exists self'. by split_and!.
Defined.

(** ** C6: no tile is made or lost *)

Ltac find_place n :=
  lazymatch n with
  | 33%nat => fail "no such place"
  | _ => first [ exists n; split; [vm_compute; reflexivity |] | find_place (S n) ]
  end.

(** C6: a shift at an odd index 1, 3 or 5 of a well-shaped board, with any
    flag, returns normally; exactly one movable tile leaves the board and
    becomes the free tile, the former free tile, rotated, takes a place on
    the board, and the other movable tiles are the same ones: the tiles on
    the movable cells together with the free tile are, before and after, the
    same multiset once the free tile has been rotated. *)
Theorem shift_conserves_tiles (self : Game) (direction index rotation : Z) (t : Tile) :
  well_shaped (board self) = true →
  free self = Some t →
  index ∈ [1; 3; 5] →
  ∃ self' ejected,
    shift direction index rotation self = (self', Ok tt) ∧
    free self' = Some ejected ∧
    (∃ k,
       movable_tiles (board self) !! k = Some (Ok ejected) ∧
       movable_tiles (board self') ≡ₚ
         Ok (rotate_path t rotation) :: delete k (movable_tiles (board self))) ∧
    Ok ejected :: movable_tiles (board self') ≡ₚ
      Ok (rotate_path t rotation) :: movable_tiles (board self) ∧
    length (movable_tiles (board self')) = 33%nat ∧
    length (movable_tiles (board self)) = 33%nat.
Proof.
  intros Hshape Hfree Hidx. destruct self as [b fr g]. simpl in *. subst fr.
  as_grid b Hshape f.
  remember (shift direction index rotation (mkGame (grid_of f) (Some t) g))
    as res eqn:Hres.
  unfold shift in Hres. rewrite !elem_of_cons, elem_of_nil in Hidx.
  destruct (Direction.meets direction Direction.NW);
    destruct (Direction.meets direction Direction.EW);
    (repeat (destruct Hidx as [-> | Hidx]); [ .. | done]);
    run_shift Hres; subst res;
    set (t' := rotate_path t rotation); clearbody t';
    eexists; eexists; (split; [reflexivity |]); (split; [reflexivity |]);
    cbn [board free].
  all: match goal with
       | |- (∃ k, ?l !! k = Some ?x ∧ ?l' ≡ₚ ?y :: delete k ?l) ∧ _ =>
         assert (∃ k, l !! k = Some x ∧ l' ≡ₚ y :: delete k l) as (k & Hk & Hperm)
           by (find_place 0%nat; vm_compute; solve_Permutation)
       end.
  all: split; [by exists k |].
  all: split; [| split; reflexivity].
  all: etrans; [apply perm_skip, Hperm |]; (etrans; [apply perm_swap |]);
    apply perm_skip; symmetry; by apply delete_Permutation.
Qed.

Lemma shift_conserves_tiles_witness :
  well_shaped (board sample_game) = true ∧
  free sample_game = Some (mkTile Direction.NEW (Some (IQuest BAT))) ∧
  5 ∈ [1; 3; 5] ∧
  ∃ self' ejected,
    shift Direction.SOUTH 5 2 sample_game = (self', Ok tt) ∧
    free self' = Some ejected ∧
    (∃ k,
       movable_tiles (board sample_game) !! k = Some (Ok ejected) ∧
       movable_tiles (board self') ≡ₚ
         Ok (rotate_path (mkTile Direction.NEW (Some (IQuest BAT))) 2)
           :: delete k (movable_tiles (board sample_game))) ∧
    Ok ejected :: movable_tiles (board self') ≡ₚ
      Ok (rotate_path (mkTile Direction.NEW (Some (IQuest BAT))) 2)
        :: movable_tiles (board sample_game) ∧
    length (movable_tiles (board self')) = 33%nat ∧
    length (movable_tiles (board sample_game)) = 33%nat.
Proof.
  assert (H : 5 ∈ [1; 3; 5]) by (rewrite !elem_of_cons; tauto).
  split_and!; [exact sample_game_shaped | exact sample_game_free | exact H |].
  exact (shift_conserves_tiles sample_game Direction.SOUTH 5 2 _
           sample_game_shaped sample_game_free H).
Defined.

(** ** C3, on the sample game *)

Lemma graph_partition_witness :
  well_shaped (board sample_game) = true ∧
  ∃ g, compute_graph (board sample_game) = Ok g ∧
    (∀ p, in_bounds p = true → ∃ S, g !! p = Some S ∧ p ∈ S) ∧
    (∀ p q S, g !! p = Some S → q ∈ S → g !! q = Some S) ∧
    (∀ p S, g !! p = Some S → in_bounds p = true ∧ S ⊆ all_cells) ∧
    (∀ p q S T, g !! p = Some S → g !! q = Some T → S = T ∨ S ## T).
Proof.
  split; [exact sample_game_shaped |].
  exact (graph_partition (board sample_game) sample_game_shaped).
Defined.

(** ** C7: the fixed tiles *)

Lemma well_formed_inv (self : Game) :
  well_formed self = true →
  well_shaped (board self) = true ∧ ∃ t, free self = Some t.
Proof.
  unfold well_formed. intros [Hshape Hfree]%andb_prop. split; [done |].
  destruct (free self) as [t |]; [by exists t | done].
Qed.

Lemma odd_index_cases (index : Z) :
  index mod 2 ≠ 0 →
  index ∈ [1; 3; 5] ∨ index ∈ [-1; -3; -5; -7] ∨ index < -7 ∨ 7 ≤ index.
Proof.
  intros Hodd. rewrite !elem_of_cons, !elem_of_nil.
  destruct (decide (index < -7)); [tauto |].
  destruct (decide (7 ≤ index)); [tauto |].
  assert (index = -7 ∨ index = -6 ∨ index = -5 ∨ index = -4 ∨ index = -3 ∨
          index = -2 ∨ index = -1 ∨ index = 0 ∨ index = 1 ∨ index = 2 ∨
          index = 3 ∨ index = 4 ∨ index = 5 ∨ index = 6) as Hc by lia.
  repeat (destruct Hc as [-> | Hc]; [first [by exfalso; apply Hodd | tauto] |]).
  subst. by exfalso; apply Hodd.
Qed.

(** Whatever its arguments and its outcome, [shift] leaves a well-formed
    game well formed. *)
Lemma shift_keeps_well_formed (self : Game) (direction index rotation : Z) :
  well_formed self = true →
  well_formed (shift direction index rotation self).1 = true.
Proof.
  intros Hwf. destruct (well_formed_inv self Hwf) as [Hshape [t Hfree]].
  destruct (decide (index mod 2 = 0)) as [Heven | Hodd].
  { unfold shift. by rewrite (proj2 (Z.eqb_eq _ _) Heven). }
  assert (Hrot : well_formed
            (mkGame (board self) (Some (rotate_path t rotation)) (graph self)) = true).
  { unfold well_formed. simpl. by rewrite Hshape. }
  destruct (odd_index_cases index Hodd) as [Hidx | [Hidx | Hout]].
  - destruct (shift_slides self direction index rotation t Hshape Hfree)
      as (self' & -> & Hwf' & _); [| done].
    unfold slides. by rewrite bool_decide_eq_true_2.
  - destruct (Direction.meets direction Direction.EW) eqn:HEW.
    + by rewrite (shift_negative_row self direction index rotation t).
    + destruct (shift_slides self direction index rotation t Hshape Hfree)
        as (self' & -> & Hwf' & _); [| done].
      unfold slides. rewrite HEW. simpl.
      rewrite (bool_decide_eq_true_2 _ Hidx). apply orb_true_r.
  - by rewrite (shift_out_of_range self direction index rotation t).
Qed.

Lemma shift_keeps_fixed (self : Game) (direction index rotation : Z) :
  well_formed self = true →
  index ∈ [1; 3; 5] →
  ∃ self',
    shift direction index rotation self = (self', Ok tt) ∧
    well_formed self' = true ∧
    ∀ i j, in_bounds (i, j) = true → i mod 2 = 0 → j mod 2 = 0 →
           tile_at (board self') i j = tile_at (board self) i j.
Proof.
  intros [Hshape [t Hfree]]%well_formed_inv Hidx.
  destruct (shift_slides self direction index rotation t Hshape Hfree)
    as (self' & Hshift & Hwf & _ & Hoff & _).
  { unfold slides. by rewrite bool_decide_eq_true_2. }
  exists self'. split_and!; [done | done |].
  intros i j Hin Hi Hj. apply (Hoff (i, j) Hin).
  unfold on_line. rewrite !elem_of_cons, elem_of_nil in Hidx.
  destruct Hidx as [-> | [-> | [-> | []]]];
    destruct (Direction.meets direction Direction.EW); simpl;
    apply Z.eqb_neq; intros ->; discriminate.
Qed.

Lemma shifts_keep_fixed (moves : list (Z * Z * Z)) (self : Game) :
  well_formed self = true →
  Forall (λ move, move.1.2 ∈ [1; 3; 5]) moves →
  ∃ self',
    shifts moves self = (self', Ok tt) ∧
    well_formed self' = true ∧
    ∀ i j, in_bounds (i, j) = true → i mod 2 = 0 → j mod 2 = 0 →
           tile_at (board self') i j = tile_at (board self) i j.
Proof.
  intros Hwf Hmoves. revert self Hwf.
  induction Hmoves as [| [[direction index] rotation] moves Hidx _ IH]; intros self Hwf.
  - by exists self.
  - destruct (shift_keeps_fixed self direction index rotation Hwf Hidx)
      as (self1 & Hshift & Hwf1 & Hsame1).
    destruct (IH self1 Hwf1) as (self' & Hshifts & Hwf' & Hsame').
    exists self'. split_and!; [| done |].
    + cbn [shifts]. unfold mbind. by rewrite Hshift.
    + intros i j Hin Hi Hj. rewrite Hsame' by done. by apply Hsame1.
Qed.

(** C7: along every sequence of shifts at odd indices 1, 3 or 5, started
    on a well-formed game, every call returns normally, and after any
    number [n] of the calls every cell with two even coordinates holds the
    tile, path and item, it held at the start. *)
Theorem fixed_tiles_stay (moves : list (Z * Z * Z)) (self : Game) (n : nat) :
  well_formed self = true →
  Forall (λ move, move.1.2 ∈ [1; 3; 5]) moves →
  ∃ self',
    shifts (take n moves) self = (self', Ok tt) ∧
    well_formed self' = true ∧
    ∀ i j, in_bounds (i, j) = true → i mod 2 = 0 → j mod 2 = 0 →
           tile_at (board self') i j = tile_at (board self) i j.
Proof.
  intros Hwf Hmoves. apply shifts_keep_fixed; [done |]. by apply Forall_take.
Qed.

Lemma fixed_tiles_stay_witness :
  well_formed sample_game = true ∧
  Forall (λ move : Z * Z * Z, move.1.2 ∈ [1; 3; 5])
         [(Direction.EAST, 1, 0); (Direction.NORTH, 3, 2); (Direction.NE, 5, 1)] ∧
  ∃ self',
    shifts (take 2 [(Direction.EAST, 1, 0); (Direction.NORTH, 3, 2); (Direction.NE, 5, 1)])
           sample_game = (self', Ok tt) ∧
    well_formed self' = true ∧
    ∀ i j, in_bounds (i, j) = true → i mod 2 = 0 → j mod 2 = 0 →
           tile_at (board self') i j = tile_at (board sample_game) i j.
Proof.
  assert (Hwf : well_formed sample_game = true) by (by vm_compute).
  assert (Hmoves : Forall (λ move : Z * Z * Z, move.1.2 ∈ [1; 3; 5])
            [(Direction.EAST, 1, 0); (Direction.NORTH, 3, 2); (Direction.NE, 5, 1)]).
  { repeat constructor; simpl; rewrite !elem_of_cons; tauto. }
  split_and!; [exact Hwf | exact Hmoves |].
  exact (fixed_tiles_stay _ sample_game 2 Hwf Hmoves).
Defined.

(** ** C9: the pool of loose tiles *)

(** The board part of [Game.__init__] on any pool of 34 tiles: every tile
    is used, the movable cells take the pool from its end backwards, the
    first tile of the pool is the free tile, the cells with two even
    coordinates keep the tiles of the literal. *)
Lemma setup_spec (pool : list Tile) :
  length pool = 34%nat →
  ∃ self,
    setup pool = Ok (self, []) ∧
    well_formed self = true ∧
    free self = head pool ∧
    movable_tiles (board self) = Ok <$> reverse (tail pool) ∧
    fixed_tiles (board self) =
      (λ p : Pos, tile_at initial_board p.1 p.2) <$>
        filter (λ p, negb (movable p) = true) cells.
Proof.
  intros Hlen.
  do 35 (destruct pool as [| ? pool]; try discriminate Hlen). clear Hlen.
  remember (setup _) as res eqn:Hres.
  cbv -[compute_graph] in Hres.
  match type of Hres with
  | context [compute_graph ?B] =>
    destruct (compute_graph_reach B eq_refl) as (g' & Hg' & _);
    rewrite Hg' in Hres
  end.
  subst res. eexists. split; [reflexivity |].
  split_and!; reflexivity.
Qed.

(** C9, as the code has it: the pool of loose tiles has 34 entries, the
    board has 33 cells with an odd coordinate; whatever order the shuffle
    leaves and whatever amounts are drawn, the construction returns
    normally with an empty pool: 33 tiles are on the movable cells, one is
    the free tile, and together they are the shuffled and rotated pool. *)
Theorem construction_uses_34_tiles (shuffle : list Tile → list Tile) (randint : nat → Z) :
  shuffle loose_tiles ≡ₚ loose_tiles →
  length loose_tiles = 34%nat ∧
  length (filter (λ p, movable p = true) cells) = 33%nat ∧
  ∃ self,
    __init__ shuffle randint = Ok (self, []) ∧
    well_formed self = true ∧
    length (movable_tiles (board self)) = 33%nat ∧
    the_tile (free self) :: movable_tiles (board self) ≡ₚ
      Ok <$> imap (λ k tile, rotate_path tile (randint k)) (shuffle loose_tiles) ∧
    fixed_tiles (board self) =
      (λ p : Pos, tile_at initial_board p.1 p.2) <$>
        filter (λ p, negb (movable p) = true) cells.
Proof.
  intros Hperm. split_and!; [reflexivity | reflexivity |].
  set (pool := imap (λ k tile, rotate_path tile (randint k)) (shuffle loose_tiles)).
  assert (Hlen : length pool = 34%nat).
  { unfold pool. rewrite length_imap. by rewrite Hperm. }
  destruct (setup_spec pool Hlen) as (self & Hsetup & Hwf & Hfree & Hmov & Hfix).
  exists self. split_and!; [exact Hsetup | exact Hwf | | | exact Hfix].
  - rewrite Hmov, length_fmap, length_reverse.
    destruct pool; [discriminate | simpl in *; lia].
  - rewrite Hfree, Hmov. destruct pool as [| h tl]; [discriminate |]. simpl.
    apply perm_skip. by rewrite reverse_Permutation.
Qed.

Lemma construction_uses_34_tiles_witness :
  (λ pool : list Tile, pool) loose_tiles ≡ₚ loose_tiles ∧
  length loose_tiles = 34%nat ∧
  length (filter (λ p, movable p = true) cells) = 33%nat ∧
  ∃ self,
    __init__ (λ pool, pool) Z.of_nat = Ok (self, []) ∧
    well_formed self = true ∧
    length (movable_tiles (board self)) = 33%nat ∧
    the_tile (free self) :: movable_tiles (board self) ≡ₚ
      Ok <$> imap (λ k tile, rotate_path tile (Z.of_nat k)) loose_tiles ∧
    fixed_tiles (board self) =
      (λ p : Pos, tile_at initial_board p.1 p.2) <$>
        filter (λ p, negb (movable p) = true) cells.
Proof.
  split; [reflexivity |].
  exact (construction_uses_34_tiles (λ pool, pool) Z.of_nat (Permutation_refl _)).
Defined.

(** C9 as stated fails: the pool has 34 tiles, not 18, and 33 cells take
    one, not 17; on a pool of 18 tiles the construction raises
    [IndexError] when the pool runs out. *)
Lemma pool_is_not_18 :
  length loose_tiles ≠ 18%nat ∧
  length (filter (λ p, movable p = true) cells) ≠ 17%nat ∧
  setup (take 18 loose_tiles) = Raise IndexError.
Proof. split_and!; [discriminate | discriminate | by vm_compute]. Qed.

(** * Further properties *)

(** ** The graph *)

(** X1.  The graph [compute_graph] returns for a well-shaped board has an entry
    for every cell of the board and for nothing else, and the entry of a
    cell is the set of the cells that can be reached from it along the
    edges of [get_adjacent]. *)
Theorem graph_is_reachability (b : Board) :
  well_shaped b = true →
  ∃ g, compute_graph b = Ok g ∧
    (∀ p, in_bounds p = true →
          ∃ S, g !! p = Some S ∧ ∀ q, q ∈ S ↔ rtc (edge b) p q) ∧
    (∀ p, in_bounds p = false → g !! p = None).
Proof.
  intros Hshape. destruct (compute_graph_reach b Hshape) as (g & Hg & Hinv & Hall).
  exists g. split_and!; [done | |].
  - intros p Hp. destruct (Hall p Hp) as [S HS]. exists S. split; [done |].
    by apply (Hinv p S HS).
  - intros p Hp. destruct (g !! p) as [S |] eqn:HS; [| done].
    destruct (Hinv p S HS) as [Hin _]. congruence.
Qed.

Lemma graph_is_reachability_witness :
  well_shaped (board sample_game) = true ∧
  ∃ g, compute_graph (board sample_game) = Ok g ∧
    (∀ p, in_bounds p = true →
          ∃ S, g !! p = Some S ∧ ∀ q, q ∈ S ↔ rtc (edge (board sample_game)) p q) ∧
    (∀ p, in_bounds p = false → g !! p = None).
Proof.
  split; [exact sample_game_shaped |].
  exact (graph_is_reachability (board sample_game) sample_game_shaped).
Defined.

Lemma NoDup_neighbours (f : Z → Z → Tile) (i j : Z) : NoDup (neighbours f i j).
Proof.
  unfold neighbours, NAVIGATION. rewrite !bind_cons; change (@nil (Z * Z * Z) ≫= _) with (@nil Pos); rewrite app_nil_r.
  repeat match goal with |- context [if ?c then _ else _] => destruct c end;
    cbn [app fst snd]; repeat (apply NoDup_cons; split); try apply NoDup_nil;
    rewrite ?not_elem_of_cons; repeat split; try apply not_elem_of_nil;
    intros H; injection H; intros; lia.
Qed.

(** X2.  On a well-shaped board [get_adjacent] returns for every cell: it
    yields at most four cells, none of them twice, each on the board and
    next to the cell asked for, and each yields that cell in turn. *)
Theorem adjacent_cells (b : Board) (i j : Z) :
  well_shaped b = true →
  in_bounds (i, j) = true →
  ∃ l, get_adjacent b i j = Ok l ∧
       NoDup l ∧ (length l ≤ 4)%nat ∧
       ∀ q, q ∈ l →
            in_bounds q = true ∧
            Z.abs (q.1 - i) + Z.abs (q.2 - j) = 1 ∧
            edge b q (i, j).
Proof.
  intros Hshape Hin. as_grid b Hshape f.
  exists (neighbours f i j). split_and!.
  - by apply get_adjacent_grid.
  - apply NoDup_neighbours.
  - unfold neighbours, NAVIGATION. rewrite !bind_cons; change (@nil (Z * Z * Z) ≫= _) with (@nil Pos); rewrite app_nil_r.
    repeat match goal with |- context [if ?c then _ else _] => destruct c end;
      cbn [app length]; lia.
  - intros q Hq.
    assert (Hedge : edge (grid_of f) (i, j) q) by (by apply edge_grid).
    split_and!.
    + by eapply edge_in_bounds.
    + apply elem_of_neighbours in Hq as (nav & Hnav & _ & ->).
      apply NAVIGATION_cases in Hnav as [-> | [-> | [-> | ->]]]; simpl; lia.
    + by apply edge_sym.
Qed.

Lemma adjacent_cells_witness :
  well_shaped (board sample_game) = true ∧
  in_bounds (0, 0) = true ∧
  ∃ l, get_adjacent (board sample_game) 0 0 = Ok l ∧
       NoDup l ∧ (length l ≤ 4)%nat ∧
       ∀ q, q ∈ l →
            in_bounds q = true ∧
            Z.abs (q.1 - 0) + Z.abs (q.2 - 0) = 1 ∧
            edge (board sample_game) q (0, 0).
Proof.
  split_and!; [exact sample_game_shaped | reflexivity |].
  exact (adjacent_cells (board sample_game) 0 0 sample_game_shaped eq_refl).
Defined.

(** ** Every outcome of shift *)

(** X3.  Every call of a sequence of shifts, whatever its arguments and whether
    it raises or not, leaves a well-formed game well formed. *)
Theorem shifts_keep_well_formed (moves : list (Z * Z * Z)) (self : Game) :
  well_formed self = true →
  well_formed (shifts moves self).1 = true.
Proof.
  revert self. induction moves as [| [[direction index] rotation] moves IH];
    intros self Hwf; [done |].
  cbn [shifts]. unfold mbind.
  pose proof (shift_keeps_well_formed self direction index rotation Hwf) as Hwf1.
  destruct (shift direction index rotation self) as [self1 [[] | e]]; [| done].
  by apply IH.
Qed.

Lemma shifts_keep_well_formed_witness :
  well_formed sample_game = true ∧
  well_formed
    (shifts [(Direction.EAST, 1, 0); (Direction.NORTH, 4, 1); (Direction.WEST, 3, 2)]
            sample_game).1 = true.
Proof.
  assert (Hwf : well_formed sample_game = true) by (by vm_compute).
  split; [exact Hwf |].
  exact (shifts_keep_well_formed _ sample_game Hwf).
Defined.

(** X4.  The outcome of [shift] on a well-formed game, for every index. *)
Theorem shift_failure_modes (self : Game) (direction index rotation : Z) (t : Tile) :
  well_shaped (board self) = true →
  free self = Some t →
  let rotated := mkGame (board self) (Some (rotate_path t rotation)) (graph self) in
  let outcome := shift direction index rotation self in
  (index mod 2 = 0 → outcome = (self, Raise ValueError)) ∧
  (index mod 2 ≠ 0 → index < -7 ∨ 7 ≤ index →
     outcome = (rotated, Raise IndexError)) ∧
  (index mod 2 ≠ 0 → -7 ≤ index < 0 →
     Direction.meets direction Direction.EW = true →
     outcome = (rotated, Raise AttributeError)) ∧
  (index mod 2 ≠ 0 → -7 ≤ index < 7 →
     (0 ≤ index ∨ Direction.meets direction Direction.EW = false) →
     outcome.2 = Ok tt) ∧
  (outcome.2 ≠ Ok tt →
     board outcome.1 = board self ∧ graph outcome.1 = graph self).
Proof.
  intros Hshape Hfree rotated outcome. subst rotated outcome.
  assert (Heven : index mod 2 = 0 →
            shift direction index rotation self = (self, Raise ValueError)).
  { intros H. unfold shift. by rewrite (proj2 (Z.eqb_eq _ _) H). }
  assert (Hout : index mod 2 ≠ 0 → index < -7 ∨ 7 ≤ index →
            shift direction index rotation self =
            (mkGame (board self) (Some (rotate_path t rotation)) (graph self),
             Raise IndexError)).
  { intros. by apply shift_out_of_range. }
  assert (Hrow : index mod 2 ≠ 0 → -7 ≤ index < 0 →
            Direction.meets direction Direction.EW = true →
            shift direction index rotation self =
            (mkGame (board self) (Some (rotate_path t rotation)) (graph self),
             Raise AttributeError)).
  { intros Hodd Hneg HEW. apply shift_negative_row; try done.
    destruct (odd_index_cases index Hodd) as [H | [H | H]]; [| done | lia].
    rewrite !elem_of_cons, elem_of_nil in H. lia. }
  assert (Hok : index mod 2 ≠ 0 → -7 ≤ index < 7 →
            (0 ≤ index ∨ Direction.meets direction Direction.EW = false) →
            (shift direction index rotation self).2 = Ok tt).
  { intros Hodd Hin Hcase.
    destruct (shift_slides self direction index rotation t Hshape Hfree)
      as (self' & -> & _); [| done].
    unfold slides.
    destruct (odd_index_cases index Hodd) as [H | [H | H]]; [| | lia].
    - by rewrite bool_decide_eq_true_2.
    - destruct Hcase as [Hpos | ->].
      + rewrite !elem_of_cons, elem_of_nil in H. lia.
      + simpl. rewrite (bool_decide_eq_true_2 _ H). apply orb_true_r. }
  split_and!; try done.
  intros Hfail.
  destruct (decide (index mod 2 = 0)) as [He | Ho]; [by rewrite Heven |].
  destruct (decide (index < -7 ∨ 7 ≤ index)) as [Hr | Hr]; [by rewrite Hout |].
  destruct (Direction.meets direction Direction.EW) eqn:HEW.
  - destruct (decide (index < 0)) as [Hn | Hn].
    + rewrite Hrow; [done | done | lia | done].
    + exfalso. apply Hfail, Hok; [done | lia | lia].
  - exfalso. apply Hfail, Hok; [done | lia | by right].
Qed.

Lemma shift_failure_modes_witness :
  well_shaped (board sample_game) = true ∧
  free sample_game = Some (mkTile Direction.NEW (Some (IQuest BAT))) ∧
  shift Direction.EAST 9 1 sample_game =
  (mkGame (board sample_game) (Some (rotate_path (mkTile Direction.NEW (Some (IQuest BAT))) 1)) (graph sample_game),
   Raise IndexError).
Proof.
  split_and!; [exact sample_game_shaped | exact sample_game_free |].
  apply (proj1 (proj2 (shift_failure_modes sample_game Direction.EAST 9 1 _
                         sample_game_shaped sample_game_free))); [done | lia].
Defined.

Lemma shift_graph_spec (self self' : Game) (direction index rotation : Z) :
  well_formed self = true →
  shift direction index rotation self = (self', Ok tt) →
  well_formed self' = true ∧
  compute_graph (board self') = Ok (graph self') ∧
  reachable_sets (board self') (graph self') ∧
  ∀ p, in_bounds p = true → is_Some (graph self' !! p).
Proof.
  intros Hwf Hshift.
  destruct (well_formed_inv self Hwf) as [Hshape [t Hfree]].
  assert (Hgraph : compute_graph (board self') = Ok (graph self')).
  { destruct (decide (index mod 2 = 0)) as [Heven | Hodd].
    { unfold shift in Hshift. by rewrite (proj2 (Z.eqb_eq _ _) Heven) in Hshift. }
    destruct (odd_index_cases index Hodd) as [Hidx | [Hidx | Hout]].
    - destruct (shift_slides self direction index rotation t Hshape Hfree)
        as (s & Hs & _ & Hg & _).
      { unfold slides. by rewrite bool_decide_eq_true_2. }
      rewrite Hs in Hshift. by injection Hshift as <-.
    - destruct (Direction.meets direction Direction.EW) eqn:HEW.
      + by rewrite (shift_negative_row self direction index rotation t) in Hshift.
      + destruct (shift_slides self direction index rotation t Hshape Hfree)
          as (s & Hs & _ & Hg & _).
        { unfold slides. rewrite HEW. simpl.
          rewrite (bool_decide_eq_true_2 _ Hidx). apply orb_true_r. }
        rewrite Hs in Hshift. by injection Hshift as <-.
    - by rewrite (shift_out_of_range self direction index rotation t) in Hshift. }
  pose proof (shift_keeps_well_formed self direction index rotation Hwf) as Hwf'.
  rewrite Hshift in Hwf'. simpl in Hwf'.
  destruct (well_formed_inv self' Hwf') as [Hshape' _].
  destruct (compute_graph_reach (board self') Hshape') as (g & Hg & Hinv & Hall).
  rewrite Hgraph in Hg. injection Hg as <-. done.
Qed.

(** X5.  After a shift that returns, the stored graph is the graph of the new
    board: it gives every cell of the board the set of the cells that can
    be reached from it on the new board. *)
Theorem shift_refreshes_graph (self self' : Game) (direction index rotation : Z) :
  well_formed self = true →
  shift direction index rotation self = (self', Ok tt) →
  compute_graph (board self') = Ok (graph self') ∧
  ∀ p, in_bounds p = true →
       ∃ S, graph self' !! p = Some S ∧
            ∀ q, q ∈ S ↔ rtc (edge (board self')) p q.
Proof.
  intros Hwf Hshift.
  destruct (shift_graph_spec self self' direction index rotation Hwf Hshift)
    as (_ & Hgraph & Hinv & Hall).
  split; [done |].
  intros p Hp. destruct (Hall p Hp) as [S HS]. exists S. split; [done |].
  by apply (Hinv p S HS).
Qed.

Lemma shift_refreshes_graph_witness :
  well_formed sample_game = true ∧
  ∃ self',
    shift Direction.EAST 1 0 sample_game = (self', Ok tt) ∧
    compute_graph (board self') = Ok (graph self').
Proof.
  assert (Hwf : well_formed sample_game = true) by (by vm_compute).
  split; [exact Hwf |].
  assert (Hok : (shift Direction.EAST 1 0 sample_game).2 = Ok tt) by (by vm_compute).
  destruct (shift Direction.EAST 1 0 sample_game) as [self' r] eqn:Hshift.
  simpl in Hok. subst r. exists self'. split; [reflexivity |].
  exact (proj1 (shift_refreshes_graph _ _ _ _ _ Hwf Hshift)).
Defined.

(** ** A shift and its opposite *)

Lemma rotate_path_0 (t : Tile) :
  Direction.valid (path t) = true → rotate_path t 0 = t.
Proof. intros H. unfold rotate_path. rewrite lshift_0 by done. by destruct t. Qed.

(** X6.  A shift and then the shift of the opposite direction at the same index:
    the tile that was pushed out comes back to its cell, rotated by the
    second amount, every other cell holds what it held, and the free tile is
    the first free tile, rotated by the first amount. *)
Theorem shift_then_opposite (self : Game) (direction index rotation rotation' : Z) (t : Tile) :
  well_shaped (board self) = true →
  free self = Some t →
  direction ∈ [Direction.NORTH; Direction.EAST; Direction.SOUTH; Direction.WEST] →
  index ∈ [1; 3; 5] →
  ∃ self1 self2 moved p,
    shift direction index rotation self = (self1, Ok tt) ∧
    free self1 = Some moved ∧
    shift (Direction.__lshift__ direction 2) index rotation' self1 = (self2, Ok tt) ∧
    free self2 = Some (rotate_path t rotation) ∧
    in_bounds p = true ∧
    tile_at (board self) p.1 p.2 = Ok moved ∧
    tile_at (board self2) p.1 p.2 = Ok (rotate_path moved rotation') ∧
    (∀ q, in_bounds q = true → q ≠ p →
          tile_at (board self2) q.1 q.2 = tile_at (board self) q.1 q.2) ∧
    (rotate_path moved rotation' = moved →
     board self2 = board self ∧ compute_graph (board self) = Ok (graph self2)).
Proof.
  intros Hshape Hfree Hdir Hidx. destruct self as [b fr g]. simpl in *. subst fr.
  as_grid b Hshape f.
  rewrite !elem_of_cons, elem_of_nil in Hdir.
  rewrite !elem_of_cons, elem_of_nil in Hidx.
  remember (shift direction index rotation (mkGame (grid_of f) (Some t) g))
    as res eqn:Hres.
  destruct Hdir as [-> | [-> | [-> | [-> | []]]]];
    destruct Hidx as [-> | [-> | [-> | []]]];
    run_shift Hres; subst res;
    set (t' := rotate_path t rotation); clearbody t';
    match goal with
    | |- ∃ self1, ∃ _ _ _, (?S1, _) = _ ∧ _ => exists S1
    end;
    match goal with
    | |- context [shift ?d ?i ?r ?s] =>
      let Hres2 := fresh "Hres2" in
      remember (shift d i r s) as res2 eqn:Hres2;
      run_shift Hres2; subst res2
    end;
    match goal with
    | |- context [free (mkGame _ (Some (f ?a ?c)) _) = Some _] =>
      eexists; exists (f a c), (a, c)
    end;
    (split; [reflexivity |]); (split; [reflexivity |]);
    (split; [reflexivity |]); (split; [reflexivity |]);
    (split; [reflexivity |]); (split; [reflexivity |]);
    (split; [reflexivity |]);
    (split;
       [ intros [i j] Hin Hne; each_cell i j Hin; first [congruence | reflexivity]
       | intros Hsame; cbn [board graph];
         match goal with
         | H : compute_graph _ = Ok ?g |- _ ∧ compute_graph _ = Ok ?g =>
           rewrite Hsame in H |- *; split; [reflexivity | exact H]
         end ]).
Qed.

Lemma shift_then_opposite_witness :
  well_shaped (board sample_game) = true ∧
  free sample_game = Some (mkTile Direction.NEW (Some (IQuest BAT))) ∧
  Direction.NORTH ∈ [Direction.NORTH; Direction.EAST; Direction.SOUTH; Direction.WEST] ∧
  1 ∈ [1; 3; 5] ∧
  ∃ self1 self2,
    shift Direction.NORTH 1 0 sample_game = (self1, Ok tt) ∧
    shift (Direction.__lshift__ Direction.NORTH 2) 1 0 self1 = (self2, Ok tt) ∧
    free self2 = Some (rotate_path (mkTile Direction.NEW (Some (IQuest BAT))) 0).
Proof.
  assert (Hd : Direction.NORTH ∈
                 [Direction.NORTH; Direction.EAST; Direction.SOUTH; Direction.WEST])
    by (rewrite !elem_of_cons; tauto).
  assert (Hi : 1 ∈ [1; 3; 5]) by (rewrite !elem_of_cons; tauto).
  split_and!; [exact sample_game_shaped | exact sample_game_free | exact Hd | exact Hi |].
  destruct (shift_then_opposite sample_game Direction.NORTH 1 0 0 _
              sample_game_shaped sample_game_free Hd Hi)
    as (self1 & self2 & moved & p & H1 & _ & H2 & H3 & _).
  exists self1, self2. by split_and!.
Defined.

(** ** deque.rotate *)



(** ** Items of a sequence *)




(** ** rotate_column *)












(** ** chunks *)

Lemma ceil_bounds (len n : Z) :
  0 < n → 0 ≤ len →
  let c := (len + n - 1) / n in
  0 ≤ c ∧ len ≤ c * n ∧ (c - 1) * n < len ∨ (len = 0 ∧ c = 0).
Proof.
  intros Hn Hlen c. subst c.
  pose proof (Z.div_mod (len + n - 1) n ltac:(lia)) as Hdm.
  pose proof (Z.mod_pos_bound (len + n - 1) n Hn) as Hmod.
  destruct (decide (len = 0)) as [-> | Hne].
  - right. split; [done |]. apply Z.div_small. lia.
  - left. assert (0 ≤ (len + n - 1) / n) by (apply Z.div_pos; lia). nia.
Qed.

Lemma py_range_up (len n : Z) :
  0 < n → 0 ≤ len →
  py_range 0 len n =
  Ok ((λ k : nat, Z.of_nat k * n) <$> seq 0 (Z.to_nat ((len + n - 1) / n))).
Proof.
  intros Hn Hlen. unfold py_range.
  rewrite (proj2 (Z.eqb_neq _ _)) by lia.
  rewrite (proj2 (Z.ltb_lt _ _) Hn).
  destruct (0 <? len) eqn:Hpos.
  - apply Z.ltb_lt in Hpos. do 2 f_equal.
    replace (len + n - 1) with (len - 0 - 1 + 1 * n) by lia.
    by rewrite Z.div_add by lia.
  - apply Z.ltb_ge in Hpos. assert (len = 0) as -> by lia.
    rewrite Z.div_small by lia. done.
Qed.

Lemma py_slice_chunk {A} (l : list A) (k : nat) (n : Z) :
  0 < n → Z.of_nat k * n < Z.of_nat (length l) →
  py_slice l (Z.of_nat k * n) (Z.of_nat k * n + n) =
  take (Z.to_nat n) (drop (k * Z.to_nat n) l).
Proof.
  intros Hn Hk. unfold py_slice.
  rewrite (proj2 (Z.ltb_ge _ _)) by lia.
  rewrite (proj2 (Z.ltb_ge _ _)) by lia.
  replace (Z.to_nat (Z.max 0 (Z.min (Z.of_nat (length l)) (Z.of_nat k * n))))
    with (k * Z.to_nat n)%nat by lia.
  set (lo := (k * Z.to_nat n)%nat).
  destruct (decide (Z.of_nat k * n + n ≤ Z.of_nat (length l))) as [Hfull | Hlast].
  - f_equal. lia.
  - rewrite !take_ge; [done | |]; rewrite length_drop; lia.
Qed.

Lemma chunks_up {A} (items : list A) (n : Z) :
  0 < n →
  chunks items n =
  Ok ((λ k : nat, take (Z.to_nat n) (drop (k * Z.to_nat n) items)) <$>
        seq 0 (Z.to_nat ((Z.of_nat (length items) + n - 1) / n))).
Proof.
  intros Hn. unfold chunks. rewrite py_range_up by lia. cbn [bind]. f_equal.
  rewrite <- list_fmap_compose. apply Forall_fmap_ext_1, Forall_forall.
  intros k Hk%elem_of_seq. simpl.
  apply py_slice_chunk; [done |].
  destruct (ceil_bounds (Z.of_nat (length items)) n Hn ltac:(lia)) as [H | [_ H]];
    [nia | lia].
Qed.

Lemma concat_takes {A} (l : list A) (m c : nat) :
  concat ((λ k : nat, take m (drop (k * m) l)) <$> seq 0 c) = take (c * m) l.
Proof.
  induction c as [| c IH]; [done |].
  rewrite seq_S, fmap_app, concat_app, IH. simpl. rewrite app_nil_r.
  by rewrite take_take_drop, Nat.add_comm.
Qed.

(** X9.  For a positive [n] the chunks, put end to end, are the list. *)
Theorem chunks_concat {A} (items : list A) (n : Z) :
  0 < n →
  ∃ cs, chunks items n = Ok cs ∧ concat cs = items.
Proof.
  intros Hn. eexists. split; [by apply chunks_up |].
  rewrite concat_takes. apply take_ge.
  destruct (ceil_bounds (Z.of_nat (length items)) n Hn ltac:(lia)) as [H | [H0 H]];
    [nia | lia].
Qed.

Lemma chunks_concat_witness :
  0 < 2 ∧ ∃ cs, chunks [BAT; BOOK; CANDELABRA; DRAGON; EMERALD] 2 = Ok cs ∧
                concat cs = [BAT; BOOK; CANDELABRA; DRAGON; EMERALD].
Proof.
  split; [lia | apply (chunks_concat [BAT; BOOK; CANDELABRA; DRAGON; EMERALD] 2); lia].
Defined.

(** X10.  For a positive [n] there are [ceil(len / n)] chunks; the [k]-th holds
    the items from place [k * n] on; every chunk but the last has [n]
    items, the last has between 1 and [n]. *)
Theorem chunks_lengths {A} (items : list A) (n : Z) :
  0 < n →
  ∃ cs, chunks items n = Ok cs ∧
    Z.of_nat (length cs) = (Z.of_nat (length items) + n - 1) / n ∧
    ∀ (k : nat) c, cs !! k = Some c →
      c = take (Z.to_nat n) (drop (k * Z.to_nat n) items) ∧
      0 < Z.of_nat (length c) ≤ n ∧
      (S k < length cs → Z.of_nat (length c) = n)%nat.
Proof.
  intros Hn. eexists. split; [by apply chunks_up |].
  rewrite length_fmap, length_seq.
  destruct (ceil_bounds (Z.of_nat (length items)) n Hn ltac:(lia)) as [H | [H0 H]].
  - split; [lia |]. intros k c.
    rewrite list_lookup_fmap. intros (k' & [-> Hk]%lookup_seq & ->)%fmap_Some.
    simpl in *. split; [done |]. rewrite length_take, length_drop.
    split; [nia |]. intros Hnext. nia.
  - split; [lia |]. intros k c. rewrite H. simpl. by rewrite lookup_nil.
Qed.

Lemma chunks_lengths_witness :
  0 < 2 ∧
  ∃ cs, chunks [BAT; BOOK; CANDELABRA; DRAGON; EMERALD] 2 = Ok cs ∧
        Z.of_nat (length cs) = (Z.of_nat 5 + 2 - 1) / 2.
Proof.
  split; [lia |].
  destruct (chunks_lengths [BAT; BOOK; CANDELABRA; DRAGON; EMERALD] 2 ltac:(lia))
    as (cs & Hcs & Hlen & _).
  exists cs. split; [exact Hcs | exact Hlen].
Defined.

(** X11.  A step of 0 makes [range] raise; with a negative step, or an empty
    list, nothing is yielded. *)
Theorem chunks_edge {A} (items : list A) (n : Z) :
  chunks items 0 = Raise ValueError ∧
  (n < 0 → chunks items n = Ok []) ∧
  (n ≠ 0 → chunks (@nil A) n = Ok []).
Proof.
  split_and!.
  - reflexivity.
  - intros Hn. unfold chunks, py_range.
    rewrite (proj2 (Z.eqb_neq _ _)) by lia.
    rewrite (proj2 (Z.ltb_ge _ _)) by lia.
    rewrite (proj2 (Z.ltb_ge _ _)) by lia. done.
  - intros Hn. unfold chunks, py_range. simpl.
    rewrite (proj2 (Z.eqb_neq _ _)) by lia.
    destruct (0 <? n); done.
Qed.

(** ** The deal *)

Lemma NoDup_all_quests : NoDup all_quests.
Proof. apply (bool_decide_unpack _). vm_compute. exact I. Qed.

Lemma deal_returns {C} (players : list (Color * C)) (deck : list Quest) :
  length deck = 24%nat →
  (1 ≤ length players ≤ 24)%nat →
  ∃ c, (length players ≤ c)%nat ∧
  deal players deck =
  Returns (zip_with
             (λ '(color, client) (hand : list Quest),
                Player.mk client color ((IQuest <$> hand) ++ [IColor color])
                          (PLAYER_START color).1 (PLAYER_START color).2)
             players
             ((λ k : nat, take (24 / length players) (drop (k * (24 / length players)) deck))
                <$> seq 0 c)).
Proof.
  intros Hdeck Hn. unfold deal, py_floordiv.
  rewrite (proj2 (Z.eqb_neq _ _)) by lia. cbn [obind].
  set (n := length players) in *.
  assert (Hm : 24 / Z.of_nat n = Z.of_nat (24 / n)).
  { change 24 with (Z.of_nat 24). by rewrite Nat2Z.inj_div. }
  assert (Hpos : (1 ≤ 24 / n)%nat).
  { apply Nat.div_le_lower_bound; lia. }
  rewrite chunks_up by lia. cbn [of_result obind].
  rewrite Hm, Nat2Z.id.
  set (m := (24 / n)%nat) in *.
  eexists. split; [| reflexivity].
  rewrite Hdeck.
  pose proof (Nat.Div0.mul_div_le 24 n) as Hle. fold m in Hle.
  apply Nat2Z.inj_le. rewrite Z2Nat.id by (apply Z.div_pos; lia).
  apply Z.div_le_lower_bound; lia.
Qed.

(** X12.  With 1 to 24 players and a deck that is the 24 quests in some order,
    the deal returns one player for each pair of [players], in order; the
    [k]-th holds the [24 // n] quests of the deck from place [k * (24 // n)]
    on, followed by its own colour, and stands at the start of its colour;
    no item is twice in a hand and no quest is in two hands. *)
Theorem deal_hands {C} (players : list (Color * C)) (deck : list Quest) :
  deck ≡ₚ all_quests →
  (1 ≤ length players ≤ 24)%nat →
  let m := (24 / length players)%nat in
  ∃ ps, deal players deck = Returns ps ∧
    length ps = length players ∧
    (∀ k color client, players !! k = Some (color, client) →
       ps !! k = Some (Player.mk client color
                         ((IQuest <$> take m (drop (k * m) deck)) ++ [IColor color])
                         (PLAYER_START color).1 (PLAYER_START color).2)) ∧
    (∀ k p, ps !! k = Some p →
       length (Player.items p) = S m ∧ NoDup (Player.items p)) ∧
    (∀ k k' p p' q, ps !! k = Some p → ps !! k' = Some p' →
       IQuest q ∈ Player.items p → IQuest q ∈ Player.items p' → k = k').
Proof.
  intros Hperm Hn m.
  assert (Hdeck : length deck = 24%nat) by (by rewrite Hperm).
  assert (Hnodup : NoDup deck) by (rewrite Hperm; apply NoDup_all_quests).
  destruct (deal_returns players deck Hdeck Hn) as (c & Hc & Hdeal).
  fold m in Hdeal. eexists. split; [exact Hdeal |].
  assert (Hpos : (1 ≤ m)%nat) by (apply Nat.div_le_lower_bound; lia).
  pose proof (Nat.Div0.mul_div_le 24 (length players)) as Hle. fold m in Hle.
  assert (Hlook : ∀ k p,
    zip_with
      (λ '(color, client) (hand : list Quest),
         Player.mk client color ((IQuest <$> hand) ++ [IColor color])
                   (PLAYER_START color).1 (PLAYER_START color).2)
      players ((λ k : nat, take m (drop (k * m) deck)) <$> seq 0 c) !! k = Some p ↔
    ∃ color client, players !! k = Some (color, client) ∧
      p = Player.mk client color
            ((IQuest <$> take m (drop (k * m) deck)) ++ [IColor color])
            (PLAYER_START color).1 (PLAYER_START color).2).
  { intros k p. rewrite lookup_zip_with_Some. split.
    - intros ([color client] & hand & -> & Hk & Hhand).
      rewrite list_lookup_fmap in Hhand.
      apply fmap_Some in Hhand as (k' & [-> _]%lookup_seq & ->). simpl. eauto.
    - intros (color & client & Hk & ->).
      exists (color, client), (take m (drop (k * m) deck)). split_and!; [done.. |].
      rewrite list_lookup_fmap, lookup_seq_lt; [done |].
      apply lookup_lt_Some in Hk. lia. }
  assert (Hin : ∀ k (q : Quest), (k < length players)%nat →
            q ∈ take m (drop (k * m) deck) →
            ∃ a, (a < m)%nat ∧ deck !! (k * m + a)%nat = Some q).
  { intros k q Hk (a & Ha)%list_elem_of_lookup.
    apply lookup_take_Some in Ha as [Ha Hlt]. rewrite lookup_drop in Ha. eauto. }
  split_and!.
  - rewrite length_zip_with_l; [done |]. by rewrite length_fmap, length_seq.
  - intros k color client Hk. apply Hlook. eauto.
  - intros k p (color & client & Hk & ->)%Hlook. cbn [Player.items].
    apply lookup_lt_Some in Hk.
    split.
    + rewrite length_app, length_fmap, length_take, length_drop. simpl. nia.
    + apply NoDup_app. split_and!.
      * apply NoDup_fmap_2_strong; [by intros ?? _ _ [= ->] |]. eapply sublist_NoDup; [exact Hnodup |]. etrans; [apply sublist_take | apply sublist_drop].
      * intros x (q & -> & _)%list_elem_of_fmap Hx%list_elem_of_singleton. done.
      * apply NoDup_singleton.
  - intros k k' p p' q (color & client & Hk & ->)%Hlook
      (color' & client' & Hk' & ->)%Hlook. cbn [Player.items].
    rewrite !elem_of_app, !list_elem_of_singleton, !list_elem_of_fmap.
    intros [(q1 & [= <-] & H1) | [=]] [(q2 & [= <-] & H2) | [=]].
    apply lookup_lt_Some in Hk, Hk'.
    destruct (Hin k q Hk H1) as (a & Ha & Hqa).
    destruct (Hin k' q Hk' H2) as (a' & Ha' & Hqa').
    pose proof (NoDup_lookup _ _ _ _ Hnodup Hqa Hqa') as Heq. nia.
Qed.

Lemma deal_hands_witness :
  all_quests ≡ₚ all_quests ∧
  (1 ≤ length [(RED, tt); (BLUE, tt)] ≤ 24)%nat ∧
  ∃ ps, deal [(RED, tt); (BLUE, tt)] all_quests = Returns ps ∧ length ps = 2%nat.
Proof.
  assert (Hn : (1 ≤ length [(RED, tt); (BLUE, tt)] ≤ 24)%nat) by (simpl; lia).
  split; [reflexivity |]. split; [exact Hn |].
  destruct (deal_hands [(RED, tt); (BLUE, tt)] all_quests (Permutation_refl _) Hn)
    as (ps & Hps & Hlen & _).
  exists ps. split; [exact Hps | exact Hlen].
Defined.

(** X13.  Without players the division raises; with more than 24 the chunk size
    is 0 and [range] raises. *)
Theorem deal_rejects {C} (players : list (Color * C)) (deck : list Quest) :
  (players = [] → deal players deck = Raises ZeroDivisionError) ∧
  ((24 < length players)%nat → deal players deck = Raises (Exn ValueError)).
Proof.
  split.
  - by intros ->.
  - intros Hn. unfold deal, py_floordiv.
    rewrite (proj2 (Z.eqb_neq _ _)) by lia. cbn [obind].
    rewrite Z.div_small by lia. done.
Qed.

(** ** Game.play *)

Lemma py_index_last {A} (l : list A) (x : A) : py_index (l ++ [x]) (-1) = Ok x.
Proof.
  unfold py_index. rewrite length_app. cbn [length Nat.add].
  change (-1 <? 0) with true. cbv iota.
  replace (Z.to_nat (-1 + Z.of_nat (length l + 1))) with (length l) by lia.
  rewrite (proj2 (andb_true_iff _ _))
    by (split; [apply Z.leb_le | apply Z.ltb_lt]; lia).
  by rewrite list_lookup_middle.
Qed.

Lemma py_index_last_inv {A} (l : list A) (x : A) :
  py_index l (-1) = Ok x → ∃ h, l = h ++ [x].
Proof.
  destruct l as [| a l _] using rev_ind; [done |].
  rewrite py_index_last. intros [= ->]. by exists l.
Qed.

Lemma fmap_insert_same {A B} (f : A → B) (l : list A) (k : nat) (x y : A) :
  l !! k = Some x → f y = f x → f <$> <[k := y]> l = f <$> l.
Proof.
  intros Hk Hf. rewrite list_fmap_insert, Hf. apply list_insert_id.
  by rewrite list_lookup_fmap, Hk.
Qed.

Lemma start_off_board (c : Color) : c ≠ RED → in_bounds (PLAYER_START c) = false.
Proof. by destruct c. Qed.

Section PlayFacts.
Context {C : Type} (call : C → Session C → Move).

Lemma turn_keeps (k : nat) (self : Session C) :
  winners (turn call k self).1 = winners self ∧
  Player.items <$> players (turn call k self).1 = Player.items <$> players self ∧
  Player.color <$> players (turn call k self).1 = Player.color <$> players self ∧
  Player.client <$> players (turn call k self).1 = Player.client <$> players self ∧
  (turn call k self).2 ≠ Returns Return.
Proof.
  unfold turn.
  destruct (players self !! k) as [player |] eqn:Hk; [| done].
  destruct (Player.items player) as [| first rest] eqn:Hitems; [done |].
  destruct (call (Player.client player) self) as [[[[direction index] rotation] i] j].
  destruct (py_index (move_history self) (-1))
    as [[[[[last_dir last_index] ?] ?] ?] | e]; [| done].
  destruct (_ && _); [done |].
  destruct (shift direction index rotation (game self)) as [g [[] | e']]; [| done].
  destruct (graph g !! _) as [reach |]; [| done].
  destruct (decide _); [| done].
  assert (Hsame : ∀ {B} (f : Player.t C → B) p,
            f p = f player → f <$> <[k := p]> (players self) = f <$> players self).
  { intros B f p Hp. by eapply fmap_insert_same. }
  destruct (tile_at (board g) i j) as [tile | e'];
    [| cbn [fst snd winners players]; split_and!; try done; by apply Hsame].
  cbn [Player.items].
  change (py_index (first :: rest) 0) with (Ok first : result Item). cbv iota.
  destruct (decide (item tile = Some first));
    cbn [popleft fst snd winners players]; split_and!; try done; by apply Hsame.
Qed.

Lemma turns_keeps (n k : nat) (self : Session C) :
  winners (turns call n k self).1 = winners self ∧
  Player.items <$> players (turns call n k self).1 = Player.items <$> players self ∧
  Player.color <$> players (turns call n k self).1 = Player.color <$> players self ∧
  Player.client <$> players (turns call n k self).1 = Player.client <$> players self ∧
  (turns call n k self).2 ≠ Returns Return.
Proof.
  revert k self. induction n as [| n IH]; intros k self; [done |].
  cbn [turns].
  destruct (turn_keeps k self) as (Hw & Hi & Hc & Hcl & Hr).
  destruct (turn call k self) as [self1 [[] | e]]; cbn [fst snd] in *; [| done | done].
  destruct (IH (S k mod length (players self1))%nat self1) as (Hw' & Hi' & Hc' & Hcl' & Hr').
  split_and!; [congruence.. | done].
Qed.

(** X14.  However long [play] runs and whatever the clients answer, no player
    ever loses an item and nobody is added to the winners; the players keep
    their colours and clients; and with a player at the table [play] never
    returns: it ends with an exception, or not at all. *)
Theorem play_never_collects (n : nat) (self : Session C) :
  winners (play call n self).1 = winners self ∧
  Player.items <$> players (play call n self).1 = Player.items <$> players self ∧
  Player.color <$> players (play call n self).1 = Player.color <$> players self ∧
  Player.client <$> players (play call n self).1 = Player.client <$> players self ∧
  ((play call n self).2 = Returns Return ↔ players self = []).
Proof.
  unfold play. destruct (players self) as [| p ps] eqn:Hps.
  - cbn [fst snd]. by rewrite Hps.
  - rewrite <- Hps.
    destruct (turns_keeps n 0 self) as (Hw & Hi & Hc & Hcl & Hr).
    split_and!; try done. split; [done |]. by rewrite Hps.
Qed.

(** A turn, once the move has passed the test against the last move and the
    shift has returned. *)
Lemma turn_after_shift (k : nat) (self : Session C) (p : Player.t C)
    (first : Item) (rest : list Item) (h : list Move)
    (direction index rotation i j last_dir last_index lr la lb : Z) (g : Game) :
  players self !! k = Some p →
  Player.items p = first :: rest →
  call (Player.client p) self = (direction, index, rotation, i, j) →
  move_history self = h ++ [(last_dir, last_index, lr, la, lb)] →
  (direction =? Direction.__lshift__ last_dir 2) && (index =? last_index) = false →
  shift direction index rotation (game self) = (g, Ok tt) →
  turn call k self =
  match graph g !! (Player.i p, Player.j p) with
  | None => (set_game g self, Raises KeyError)
  | Some reach =>
    if decide ((i, j) ∈ reach) then
      let moved :=
        mkSession g
          (<[k := Player.mk (Player.client p) (Player.color p) (Player.items p) i j]>
             (players self))
          (winners self)
          (move_history self ++ [(direction, index, rotation, i, j)]) in
      match tile_at (board g) i j with
      | Raise e => (moved, Raises (Exn e))
      | Ok tile =>
        if decide (item tile = Some first) then (moved, Raises (Exn AttributeError))
        else (moved, Returns Next)
      end
    else (set_game g self, Raises (Exn ValueError))
  end.
Proof.
  intros Hk Hitems Hcall Hhist Hrev Hshift. unfold turn.
  rewrite Hk, Hitems, Hcall, Hhist, py_index_last, Hrev, Hshift.
  destruct (graph g !! _) as [reach |]; [| done].
  destruct (decide _) as [Hreach | Hreach]; [| done].
  cbn [set_game players winners move_history].
  rewrite Hhist.
  destruct (tile_at (board g) i j) as [tile | e]; [| done].
  cbn [Player.items].
  change (py_index (first :: rest) 0) with (Ok first : result Item). cbv iota.
  by destruct (decide (item tile = Some first)).
Qed.

End PlayFacts.

Section TurnFacts.
Context {C : Type} (call : C → Session C → Move).

(** X15.  A turn that ends without an exception: the move was not the reverse of
    the last one, the shift returned, the player stands on the cell it
    asked for, which can be reached from its old cell on the shifted board,
    the move is the last of the history, and the tile reached does not hold
    the item the player looks for. *)
Theorem turn_moves_along_path (k : nat) (self : Session C) (p : Player.t C)
    (direction index rotation i j : Z) :
  well_formed (game self) = true →
  players self !! k = Some p →
  Player.items p ≠ [] →
  call (Player.client p) self = (direction, index, rotation, i, j) →
  (turn call k self).2 = Returns Next →
  let self' := (turn call k self).1 in
  shift direction index rotation (game self) = (game self', Ok tt) ∧
  rtc (edge (board (game self'))) (Player.i p, Player.j p) (i, j) ∧
  players self' =
    <[k := Player.mk (Player.client p) (Player.color p) (Player.items p) i j]>
      (players self) ∧
  move_history self' = move_history self ++ [(direction, index, rotation, i, j)] ∧
  winners self' = winners self ∧
  (∃ h last_dir last_index lr la lb,
     move_history self = h ++ [(last_dir, last_index, lr, la, lb)] ∧
     ¬ (direction = Direction.__lshift__ last_dir 2 ∧ index = last_index)) ∧
  ∃ tile, tile_at (board (game self')) i j = Ok tile ∧
          item tile ≠ head (Player.items p).
Proof.
  intros Hwf Hk Hitems Hcall Hnext self'.
  destruct (Player.items p) as [| first rest] eqn:Hfirst; [done |].
  destruct (py_index (move_history self) (-1))
    as [[[[[last_dir last_index] lr] la] lb] | e] eqn:Hlast; last first.
  { unfold turn in Hnext. by rewrite Hk, Hfirst, Hcall, Hlast in Hnext. }
  apply py_index_last_inv in Hlast as [h Hhist].
  destruct ((direction =? Direction.__lshift__ last_dir 2) && (index =? last_index))
    eqn:Hrev.
  { unfold turn in Hnext.
    by rewrite Hk, Hfirst, Hcall, Hhist, py_index_last, Hrev in Hnext. }
  destruct (shift direction index rotation (game self)) as [g [[] | e]] eqn:Hshift;
    last first.
  { unfold turn in Hnext.
    by rewrite Hk, Hfirst, Hcall, Hhist, py_index_last, Hrev, Hshift in Hnext. }
  destruct (shift_graph_spec _ _ _ _ _ Hwf Hshift) as (Hwf' & Hgraph & Hinv & Hall).
  subst self'.
  rewrite (turn_after_shift call k self p first rest h direction index rotation i j
             last_dir last_index lr la lb g) in Hnext |- *; try done.
  destruct (graph g !! (Player.i p, Player.j p)) as [reach |] eqn:Hreach; [| done].
  destruct (decide ((i, j) ∈ reach)) as [Hin | Hin]; [| done].
  cbv zeta in Hnext |- *.
  destruct (tile_at (board g) i j) as [tile | e] eqn:Htile; [| done].
  destruct (decide (item tile = Some first)) as [Heq | Hne]; [done |].
  cbn [fst snd game players winners move_history].
  split_and!; try done.
  - destruct (Hinv _ _ Hreach) as [_ Hiff]. by apply Hiff.
  - by rewrite Hfirst.
  - exists h, last_dir, last_index, lr, la, lb. split; [done |].
    intros [-> ->]. by rewrite !Z.eqb_refl in Hrev.
  - by exists tile.
Qed.

(** X16.  A player that stands off the board cannot be moved: the graph has no
    entry for its cell, and the turn ends with [KeyError] after the shift
    has been done.  This is where the yellow, green and blue players start. *)
Theorem turn_off_board (k : nat) (self : Session C) (p : Player.t C)
    (direction index rotation i j : Z) (h : list Move)
    (last_dir last_index lr la lb : Z) :
  well_formed (game self) = true →
  players self !! k = Some p →
  Player.items p ≠ [] →
  Player.color p ≠ RED →
  (Player.i p, Player.j p) = PLAYER_START (Player.color p) →
  call (Player.client p) self = (direction, index, rotation, i, j) →
  move_history self = h ++ [(last_dir, last_index, lr, la, lb)] →
  ¬ (direction = Direction.__lshift__ last_dir 2 ∧ index = last_index) →
  (shift direction index rotation (game self)).2 = Ok tt →
  turn call k self =
  (set_game (shift direction index rotation (game self)).1 self, Raises KeyError).
Proof.
  intros Hwf Hk Hitems Hcolor Hstart Hcall Hhist Hrev Hshift.
  destruct (Player.items p) as [| first rest] eqn:Hfirst; [done |].
  destruct (shift direction index rotation (game self)) as [g r] eqn:Hg.
  cbn [fst snd] in *. subst r.
  destruct (shift_graph_spec _ _ _ _ _ Hwf Hg) as (Hwf' & Hgraph & Hinv & Hall).
  rewrite (turn_after_shift call k self p first rest h direction index rotation i j
             last_dir last_index lr la lb g); try done.
  - destruct (graph g !! (Player.i p, Player.j p)) as [reach |] eqn:Hreach; [| done].
    destruct (Hinv _ _ Hreach) as [Hin _].
    rewrite Hstart, start_off_board in Hin; done.
  - apply andb_false_iff.
    destruct (decide (direction = Direction.__lshift__ last_dir 2)) as [-> | Hd].
    + right. apply Z.eqb_neq. intros ->. by apply Hrev.
    + left. by apply Z.eqb_neq.
Qed.

(** X17.  The two ways a move is refused.  The reverse of the last move is
    refused before anything is changed.  A cell that cannot be reached is
    refused after the shift: the board stays shifted, and the player and
    the history are as before. *)
Theorem turn_refuses (k : nat) (self : Session C) (p : Player.t C)
    (direction index rotation i j : Z) (h : list Move)
    (last_dir last_index lr la lb : Z) :
  well_formed (game self) = true →
  players self !! k = Some p →
  Player.items p ≠ [] →
  call (Player.client p) self = (direction, index, rotation, i, j) →
  move_history self = h ++ [(last_dir, last_index, lr, la, lb)] →
  (direction = Direction.__lshift__ last_dir 2 ∧ index = last_index →
     turn call k self = (self, Raises (Exn ValueError))) ∧
  (¬ (direction = Direction.__lshift__ last_dir 2 ∧ index = last_index) →
   (shift direction index rotation (game self)).2 = Ok tt →
   in_bounds (Player.i p, Player.j p) = true →
   ¬ rtc (edge (board (shift direction index rotation (game self)).1))
         (Player.i p, Player.j p) (i, j) →
   turn call k self =
   (set_game (shift direction index rotation (game self)).1 self,
    Raises (Exn ValueError))).
Proof.
  intros Hwf Hk Hitems Hcall Hhist.
  destruct (Player.items p) as [| first rest] eqn:Hfirst; [done |].
  split.
  - intros [-> ->]. unfold turn.
    by rewrite Hk, Hfirst, Hcall, Hhist, py_index_last, !Z.eqb_refl.
  - intros Hrev Hshift Hpos Hfar.
    destruct (shift direction index rotation (game self)) as [g r] eqn:Hg.
    cbn [fst snd] in *. subst r.
    destruct (shift_graph_spec _ _ _ _ _ Hwf Hg) as (Hwf' & Hgraph & Hinv & Hall).
    rewrite (turn_after_shift call k self p first rest h direction index rotation i j
               last_dir last_index lr la lb g); try done.
    + destruct (Hall _ Hpos) as [reach Hreach]. rewrite Hreach.
      destruct (decide ((i, j) ∈ reach)) as [Hin | Hin]; [| done].
      exfalso. apply Hfar. destruct (Hinv _ _ Hreach) as [_ Hiff]. by apply Hiff.
    + apply andb_false_iff.
      destruct (decide (direction = Direction.__lshift__ last_dir 2)) as [-> | Hd].
      * right. apply Z.eqb_neq. intros ->. by apply Hrev.
      * left. by apply Z.eqb_neq.
Qed.

(** X18.  A player that reaches the tile with the item it looks for does not get
    it: [popleft] raises [AttributeError], after the player has been moved
    and the move has been written to the history. *)
Theorem turn_collect_raises (k : nat) (self : Session C) (p : Player.t C)
    (direction index rotation i j : Z) (h : list Move)
    (last_dir last_index lr la lb : Z) (first : Item) (rest : list Item)
    (tile : Tile) :
  well_formed (game self) = true →
  players self !! k = Some p →
  Player.items p = first :: rest →
  call (Player.client p) self = (direction, index, rotation, i, j) →
  move_history self = h ++ [(last_dir, last_index, lr, la, lb)] →
  ¬ (direction = Direction.__lshift__ last_dir 2 ∧ index = last_index) →
  (shift direction index rotation (game self)).2 = Ok tt →
  in_bounds (Player.i p, Player.j p) = true →
  rtc (edge (board (shift direction index rotation (game self)).1))
      (Player.i p, Player.j p) (i, j) →
  tile_at (board (shift direction index rotation (game self)).1) i j = Ok tile →
  item tile = Some first →
  turn call k self =
  (mkSession (shift direction index rotation (game self)).1
     (<[k := Player.mk (Player.client p) (Player.color p) (first :: rest) i j]>
        (players self))
     (winners self)
     (move_history self ++ [(direction, index, rotation, i, j)]),
   Raises (Exn AttributeError)).
Proof.
  intros Hwf Hk Hfirst Hcall Hhist Hrev Hshift Hpos Hpath Htile Hitem.
  destruct (shift direction index rotation (game self)) as [g r] eqn:Hg.
  cbn [fst snd] in *. subst r.
  destruct (shift_graph_spec _ _ _ _ _ Hwf Hg) as (Hwf' & Hgraph & Hinv & Hall).
  rewrite (turn_after_shift call k self p first rest h direction index rotation i j
             last_dir last_index lr la lb g); try done.
  - destruct (Hall _ Hpos) as [reach Hreach]. rewrite Hreach.
    destruct (decide ((i, j) ∈ reach)) as [Hin | Hin].
    + cbv zeta. rewrite Htile, Hfirst. by rewrite decide_True.
    + exfalso. apply Hin. destruct (Hinv _ _ Hreach) as [_ Hiff]. by apply Hiff.
  - apply andb_false_iff.
    destruct (decide (direction = Direction.__lshift__ last_dir 2)) as [-> | Hd].
    + right. apply Z.eqb_neq. intros ->. by apply Hrev.
    + left. by apply Z.eqb_neq.
Qed.

End TurnFacts.

Lemma turn_moves_along_path_witness :
  well_formed (game sample_session) = true ∧
  (turn (answers (Direction.NORTH, 1, 0, 0, 0)) 0 sample_session).2 = Returns Next ∧
  rtc (edge (board (game (turn (answers (Direction.NORTH, 1, 0, 0, 0)) 0 sample_session).1)))
      (0, 0) (0, 0) ∧
  move_history (turn (answers (Direction.NORTH, 1, 0, 0, 0)) 0 sample_session).1 =
    [(Direction.NORTH, 3, 0, 0, 0); (Direction.NORTH, 1, 0, 0, 0)].
Proof.
  assert (Hwf : well_formed (game sample_session) = true) by (by vm_compute).
  assert (Hnext : (turn (answers (Direction.NORTH, 1, 0, 0, 0)) 0 sample_session).2
                  = Returns Next) by (by vm_compute).
  destruct (turn_moves_along_path (answers (Direction.NORTH, 1, 0, 0, 0)) 0
              sample_session (Player.mk tt RED [IQuest BAT; IColor RED] 0 0)
              Direction.NORTH 1 0 0 0 Hwf eq_refl ltac:(done) eq_refl Hnext)
    as (_ & Hpath & _ & Hhist & _).
  by split_and!.
Defined.

Lemma turn_off_board_witness :
  well_formed (game sample_session) = true ∧
  (shift Direction.NORTH 1 0 (game sample_session)).2 = Ok tt ∧
  turn (answers (Direction.NORTH, 1, 0, 6, 6)) 1 sample_session =
  (set_game (shift Direction.NORTH 1 0 (game sample_session)).1 sample_session,
   Raises KeyError).
Proof.
  assert (Hwf : well_formed (game sample_session) = true) by (by vm_compute).
  assert (Hshift : (shift Direction.NORTH 1 0 (game sample_session)).2 = Ok tt)
    by (by vm_compute).
  split_and!; [exact Hwf | exact Hshift |].
  apply (turn_off_board (answers (Direction.NORTH, 1, 0, 6, 6)) 1 sample_session
           (Player.mk tt BLUE [IQuest BOOK; IColor BLUE] 7 7)
           Direction.NORTH 1 0 6 6 [] Direction.NORTH 3 0 0 0 Hwf eq_refl);
    [done | done | reflexivity | reflexivity | reflexivity | | exact Hshift].
  intros [H _]. by vm_compute in H.
Defined.

Lemma turn_refuses_witness :
  well_formed (game sample_session) = true ∧
  turn (answers (Direction.SOUTH, 3, 0, 0, 0)) 0 sample_session =
  (sample_session, Raises (Exn ValueError)).
Proof.
  assert (Hwf : well_formed (game sample_session) = true) by (by vm_compute).
  split; [exact Hwf |].
  apply (proj1 (turn_refuses (answers (Direction.SOUTH, 3, 0, 0, 0)) 0 sample_session
                  (Player.mk tt RED [IQuest BAT; IColor RED] 0 0)
                  Direction.SOUTH 3 0 0 0 [] Direction.NORTH 3 0 0 0
                  Hwf eq_refl ltac:(done) eq_refl eq_refl)).
  split; reflexivity.
Defined.

Lemma turn_collect_raises_witness :
  well_formed (game sample_session) = true ∧
  (shift Direction.NORTH 1 0 (game sample_session)).2 = Ok tt ∧
  tile_at (board (shift Direction.NORTH 1 0 (game sample_session)).1) 0 6 =
    Ok (mkTile Direction.SW (Some (IColor YELLOW))) ∧
  (turn (answers (Direction.NORTH, 1, 0, 0, 6)) 2 sample_session).2 =
    Raises (Exn AttributeError).
Proof.
  assert (Hwf : well_formed (game sample_session) = true) by (by vm_compute).
  assert (Hshift : (shift Direction.NORTH 1 0 (game sample_session)).2 = Ok tt)
    by (by vm_compute).
  assert (Htile : tile_at (board (shift Direction.NORTH 1 0 (game sample_session)).1) 0 6 =
                  Ok (mkTile Direction.SW (Some (IColor YELLOW)))) by (by vm_compute).
  split_and!; [exact Hwf | exact Hshift | exact Htile |].
  rewrite (turn_collect_raises (answers (Direction.NORTH, 1, 0, 0, 6)) 2 sample_session
             (Player.mk tt YELLOW [IColor YELLOW] 0 6)
             Direction.NORTH 1 0 0 6 [] Direction.NORTH 3 0 0 0
             (IColor YELLOW) [] (mkTile Direction.SW (Some (IColor YELLOW)))
             Hwf eq_refl eq_refl eq_refl eq_refl);
    [reflexivity | | exact Hshift | reflexivity | apply rtc_refl | exact Htile | reflexivity].
  intros [H _]. by vm_compute in H.
Defined.

Section PlayStart.
Context {C : Type} (call : C → Session C → Move).

(** X19.  [play] cannot start.  [Game.__init__] leaves [move_history] empty and
    gives every player a non-empty list of items, so the first turn asks an
    empty list for its last item: whatever the shuffles, the players (1 to
    24 of them) and the clients' answers, [play] raises [IndexError] in its
    first turn and has changed nothing. *)
Theorem play_cannot_start (shuffle : list Tile → list Tile) (randint : nat → Z)
    (shuffle_deck : list Quest → list Quest) (pairs : list (Color * C)) (n : nat) :
  shuffle loose_tiles ≡ₚ loose_tiles →
  shuffle_deck all_quests ≡ₚ all_quests →
  (1 ≤ length pairs ≤ 24)%nat →
  ∃ self,
    Game_init shuffle randint shuffle_deck pairs = Returns self ∧
    well_formed (game self) = true ∧
    length (players self) = length pairs ∧
    winners self = [] ∧
    move_history self = [] ∧
    play call (S n) self = (self, Raises (Exn IndexError)).
Proof.
  intros Hperm Hdeck Hn.
  set (pool := imap (λ k tile, rotate_path tile (randint k)) (shuffle loose_tiles)).
  assert (Hlen : length pool = 34%nat).
  { unfold pool. rewrite length_imap. by rewrite Hperm. }
  destruct (setup_spec pool Hlen) as (g & Hsetup & Hwf & _).
  assert (Hdeck' : length (shuffle_deck all_quests) = 24%nat) by (by rewrite Hdeck).
  destruct (deal_returns pairs (shuffle_deck all_quests) Hdeck' Hn) as (c & Hc & Hdeal).
  eexists. split.
  { unfold Game_init, __init__. fold pool. rewrite Hsetup. cbn [of_result obind].
    rewrite Hdeal. cbn [obind]. reflexivity. }
  cbn [game players winners move_history].
  split_and!; [done | | done | done |].
  { rewrite length_zip_with_l; [done |]. by rewrite length_fmap, length_seq. }
  destruct pairs as [| [color client] pairs]; [simpl in Hn; lia |].
  destruct c as [| c]; [simpl in Hc; lia |].
  cbn [seq fmap list_fmap zip_with]. unfold play. cbn [players turns].
  unfold turn. cbn [players lookup list_lookup Player.items Player.client].
  destruct (_ ++ [IColor color]) as [| first rest] eqn:Hitems.
  { by apply app_nil in Hitems as [_ ?]. }
  by destruct (call client _) as [[[[direction index] rotation] i] j].
Qed.

End PlayStart.

Lemma play_cannot_start_witness :
  (λ pool : list Tile, pool) loose_tiles ≡ₚ loose_tiles ∧
  (λ deck : list Quest, deck) all_quests ≡ₚ all_quests ∧
  (1 ≤ length [(RED, tt); (BLUE, tt)] ≤ 24)%nat ∧
  ∃ self,
    Game_init (λ pool, pool) Z.of_nat (λ deck, deck) [(RED, tt); (BLUE, tt)] =
      Returns self ∧
    play (answers (Direction.NORTH, 1, 0, 0, 0)) 1 self = (self, Raises (Exn IndexError)).
Proof.
  assert (Hn : (1 ≤ length [(RED, tt); (BLUE, tt)] ≤ 24)%nat) by (simpl; lia).
  split; [reflexivity |]. split; [reflexivity |]. split; [exact Hn |].
  destruct (play_cannot_start (answers (Direction.NORTH, 1, 0, 0, 0))
              (λ pool, pool) Z.of_nat (λ deck, deck) [(RED, tt); (BLUE, tt)] 0%nat
              (Permutation_refl _) (Permutation_refl _) Hn)
    as (self & Hinit & _ & _ & _ & _ & Hplay).
  exists self. split; [exact Hinit | exact Hplay].
Defined.

(** ** print_sectors *)

Lemma tuple_lt_spec (p q : Pos) :
  tuple_lt p q = true ↔ p.1 < q.1 ∨ (p.1 = q.1 ∧ p.2 < q.2).
Proof.
  unfold tuple_lt.
  rewrite orb_true_iff, andb_true_iff, !Z.ltb_lt, Z.eqb_eq. tauto.
Qed.

Lemma tuple_lt_false (p q : Pos) :
  tuple_lt p q = false ↔ q.1 < p.1 ∨ (q.1 = p.1 ∧ q.2 ≤ p.2).
Proof.
  rewrite <- not_true_iff_false, tuple_lt_spec. lia.
Qed.

Lemma foldl_min (p : Pos) (items : list Pos) :
  let m := foldl (λ m q, if tuple_lt q m then q else m) p items in
  m ∈ p :: items ∧ ∀ q, q ∈ p :: items → tuple_lt q m = false.
Proof.
  revert p. induction items as [| a items IH]; intros p; cbn [foldl].
  - split; [apply list_elem_of_here |].
    intros q ->%list_elem_of_singleton. apply tuple_lt_false. lia.
  - destruct (tuple_lt a p) eqn:Hlt.
    + destruct (IH a) as [Hin Hmin]. split.
      * apply elem_of_cons. right. exact Hin.
      * intros q [-> | Hq]%elem_of_cons; [| by apply Hmin].
        pose proof (Hmin a (list_elem_of_here _ _)) as Ha.
        apply tuple_lt_spec in Hlt. apply tuple_lt_false in Ha.
        apply tuple_lt_false. lia.
    + destruct (IH p) as [Hin Hmin]. split.
      * apply elem_of_cons in Hin as [Hin | Hin].
        -- rewrite Hin. apply list_elem_of_here.
        -- do 2 (apply elem_of_cons; right). exact Hin.
      * intros q [-> | [-> | Hq]%elem_of_cons]%elem_of_cons.
        -- apply Hmin, list_elem_of_here.
        -- pose proof (Hmin p (list_elem_of_here _ _)) as Hp.
           apply tuple_lt_false in Hlt, Hp. apply tuple_lt_false. lia.
        -- apply Hmin. apply elem_of_cons. by right.
Qed.

Lemma sector_spec (adj : gset Pos) (p : Pos) :
  p ∈ adj →
  ∃ m, sector adj = Ok (pretty m.1 +:+ "," +:+ pretty m.2) ∧
       m ∈ adj ∧ ∀ q, q ∈ adj → tuple_lt q m = false.
Proof.
  intros Hp. unfold sector, py_min.
  destruct (elements adj) as [| a items] eqn:Hel.
  { apply elem_of_elements in Hp. rewrite Hel in Hp. by apply elem_of_nil in Hp. }
  destruct (foldl_min a items) as [Hin Hmin].
  set (m := foldl _ a items) in *. exists m. cbn [bind]. split_and!.
  - by destruct m.
  - apply elem_of_elements. by rewrite Hel.
  - intros q Hq. apply Hmin. rewrite <- Hel. by apply elem_of_elements.
Qed.

Lemma label_inj (m m' : Pos) :
  in_bounds m = true → in_bounds m' = true →
  pretty m.1 +:+ "," +:+ pretty m.2 = pretty m'.1 +:+ "," +:+ pretty m'.2 →
  m = m'.
Proof.
  destruct m as [i j], m' as [i' j']. intros H H'.
  assert (Hdigit : ∀ x : Z, 0 ≤ x < 7 → ∃ c, pretty x = String c EmptyString).
  { intros x Hx.
    assert (x = 0 ∨ x = 1 ∨ x = 2 ∨ x = 3 ∨ x = 4 ∨ x = 5 ∨ x = 6) as Hc by lia.
    repeat (destruct Hc as [-> | Hc]; [eexists; vm_compute; reflexivity |]).
    subst. eexists. vm_compute. reflexivity. }
  apply in_bounds_cases in H as [Hi Hj], H' as [Hi' Hj']. cbn [fst snd].
  destruct (Hdigit i ltac:(lia)) as (ci & Hci).
  destruct (Hdigit j ltac:(lia)) as (cj & Hcj).
  destruct (Hdigit i' ltac:(lia)) as (ci' & Hci').
  destruct (Hdigit j' ltac:(lia)) as (cj' & Hcj').
  rewrite Hci, Hcj, Hci', Hcj'. cbn [String.app]. intros [= -> ->].
  rewrite <- Hci' in Hci. rewrite <- Hcj' in Hcj.
  apply (inj pretty) in Hci, Hcj. by subst.
Qed.

Lemma sectors_fold (label : gset Pos → string) (l : list (Pos * gset Pos))
    (acc : gmap Pos string) :
  (∀ k v, (k, v) ∈ l → sector v = Ok (label v)) →
  foldM (λ labels '(node, adj),
           let! s := sector adj in Ok (<[node := s]> labels)) acc l =
  Ok (foldl (λ labels '(node, adj), <[node := label adj]> labels) acc l).
Proof.
  revert acc. induction l as [| [k v] l IH]; intros acc Hl; [done |].
  cbn [foldM foldl]. rewrite (Hl k v) by apply list_elem_of_here. cbn [bind].
  apply IH. intros k' v' Hin. apply (Hl k' v'). apply elem_of_cons. by right.
Qed.

Lemma foldl_insert_lookup (label : gset Pos → string) (l : list (Pos * gset Pos))
    (acc : gmap Pos string) (k : Pos) (v : gset Pos) :
  NoDup l.*1 → (k, v) ∈ l →
  foldl (λ labels '(node, adj), <[node := label adj]> labels) acc l !! k =
  Some (label v).
Proof.
  revert acc. induction l as [| [k' v'] l IH]; intros acc Hnd Hin.
  { by apply elem_of_nil in Hin. }
  cbn [fmap list_fmap fst] in Hnd. apply NoDup_cons in Hnd as [Hk' Hnd].
  apply elem_of_cons in Hin as [[= <- <-] | Hin]; cbn [foldl].
  - clear IH Hnd. revert acc Hk'.
    induction l as [| [k2 v2] l IH2]; intros acc Hk'; cbn [foldl].
    + by rewrite lookup_insert_eq.
    + cbn [fmap list_fmap fst] in Hk'. apply not_elem_of_cons in Hk' as [Hne Hk'].
      rewrite insert_insert_ne by done. by apply IH2.
  - by apply IH.
Qed.

Lemma rtc_edge_sym (f : Z → Z → Tile) (p q : Pos) :
  in_bounds p = true → rtc (edge (grid_of f)) p q →
  in_bounds q = true ∧ rtc (edge (grid_of f)) q p.
Proof.
  intros Hp Hpq. induction Hpq as [p | p r q Hpr Hrq IH]; [done |].
  pose proof (edge_in_bounds _ _ _ Hp Hpr) as Hr.
  destruct (IH Hr) as [Hq Hqr]. split; [done |].
  eapply rtc_r; [exact Hqr |]. by apply edge_sym.
Qed.

(** X20.  The labels of [print_sectors] name the connected parts of the board.
    On the graph of a well-shaped board the dict is built without an
    exception; the label of a cell is made of the coordinates of the least
    cell that can be reached from it, in the order of tuples; and two cells
    have the same label exactly when one can be reached from the other. *)
Theorem sectors_name_components (b : Board) (g : gmap Pos (gset Pos)) :
  well_shaped b = true →
  compute_graph b = Ok g →
  ∃ labels, sectors g = Ok labels ∧
    (∀ p, in_bounds p = true →
       ∃ m, labels !! p = Some (pretty m.1 +:+ "," +:+ pretty m.2) ∧
            rtc (edge b) p m ∧
            ∀ q, rtc (edge b) p q → tuple_lt q m = false) ∧
    (∀ p q, in_bounds p = true → in_bounds q = true →
       (labels !! p = labels !! q ↔ rtc (edge b) p q)).
Proof.
  intros Hshape Hg.
  destruct (compute_graph_reach b Hshape) as (g' & Hg' & Hinv & Hall).
  rewrite Hg in Hg'. injection Hg' as <-.
  as_grid b Hshape f.
  set (label := λ adj : gset Pos, tile_or (sector adj) "").
  assert (Hself : ∀ k v, g !! k = Some v → k ∈ v).
  { intros k v Hk. destruct (Hinv k v Hk) as [_ Hiff]. by apply Hiff. }
  assert (Hlab : ∀ k v, (k, v) ∈ map_to_list g → sector v = Ok (label v)).
  { intros k v Hk%elem_of_map_to_list.
    destruct (sector_spec v k (Hself k v Hk)) as (m & Hm & _).
    unfold label. by rewrite Hm. }
  pose (built := foldl (λ (labels : gmap Pos string) '(node, adj),
                          <[node := label adj]> labels) ∅ (map_to_list g)).
  exists built.
  split; [by apply sectors_fold |].
  assert (Hlook : ∀ p, in_bounds p = true →
            ∃ S m, g !! p = Some S ∧
              built !! p = Some (pretty m.1 +:+ "," +:+ pretty m.2) ∧
              m ∈ S ∧ (∀ q, q ∈ S → tuple_lt q m = false)).
  { intros p Hp. destruct (Hall p Hp) as [S HS].
    destruct (sector_spec S p (Hself p S HS)) as (m & Hm & Hin & Hmin).
    exists S, m. split_and!; try done.
    unfold built. rewrite (foldl_insert_lookup label _ _ p S).
    - unfold label. by rewrite Hm.
    - apply NoDup_fst_map_to_list.
    - by apply elem_of_map_to_list. }
  split.
  - intros p Hp. destruct (Hlook p Hp) as (S & m & HS & Hl & Hin & Hmin).
    destruct (Hinv p S HS) as [_ Hiff].
    exists m. split_and!; [done | by apply Hiff |].
    intros q Hq. by apply Hmin, Hiff.
  - intros p q Hp Hq.
    destruct (Hlook p Hp) as (S & m & HS & Hl & Hin & Hmin).
    destruct (Hlook q Hq) as (S' & m' & HS' & Hl' & Hin' & Hmin').
    destruct (Hinv p S HS) as [_ Hiff]. destruct (Hinv q S' HS') as [_ Hiff'].
    rewrite Hl, Hl'. split.
    + intros [= Heq].
      apply Hiff in Hin. apply Hiff' in Hin'.
      destruct (rtc_edge_sym f p m Hp Hin) as [Hm _].
      destruct (rtc_edge_sym f q m' Hq Hin') as [Hm' Hback].
      apply (label_inj m m' Hm Hm') in Heq. subst m'.
      by etrans.
    + intros Hpq.
      assert (S = S') as <-.
      { apply set_eq. intros w. rewrite Hiff, Hiff'. split; intros Hw.
        - destruct (rtc_edge_sym f p q Hp Hpq) as [_ Hqp]. by etrans.
        - by etrans. }
      f_equal.
      pose proof (Hmin m' Hin') as H1. pose proof (Hmin' m Hin) as H2.
      apply tuple_lt_false in H1, H2.
      destruct m as [a c], m' as [a' c']. simpl in *.
      assert (a = a' ∧ c = c') as [-> ->] by lia. done.
Qed.

Lemma sectors_name_components_witness :
  well_shaped (board sample_game) = true ∧
  ∃ g labels,
    compute_graph (board sample_game) = Ok g ∧
    sectors g = Ok labels ∧
    ∃ m : Pos, labels !! (0, 0) = Some (pretty m.1 +:+ "," +:+ pretty m.2).
Proof.
  split; [exact sample_game_shaped |].
  destruct (compute_graph_reach (board sample_game) sample_game_shaped)
    as (g & Hg & _).
  destruct (sectors_name_components (board sample_game) g
              sample_game_shaped Hg) as (labels & Hlabels & Hcell & _).
  exists g, labels. split; [exact Hg |]. split; [exact Hlabels |].
  destruct (Hcell (0, 0) eq_refl) as (m & Hm & _). by exists m.
Defined.
